(** * Image viewer: bounded image cache, background preloader, viewport state

    A shallow embedding of [example/main.py]: the class [ImageCache]
    (a dict, a deque of keys and a byte counter), the class
    [ImagePreloader] (a set of in-flight keys and a worker pool) and the
    part of the loop of [main] that follows rendering and preloading (the
    slideshow check and the event handling: zoom, pan, slideshow, art and
    mosaic flags).

    Python objects are mutable; every method is a function from the state
    before the call to the state after it.  A Python exception is the
    [Raise] result of the error monad [res].  Integers are [Z], floats are
    IEEE binary64 numbers, the dict is a [gmap], the deque a list with its
    left end first, the set a [gset].

    Decoding, drawing and file operations are outside the model: a decoded
    surface is an input of [put], the result of a file operation is taken
    to be success, and each method call on the cache is one step. *)

From Stdlib Require Import ZArith QArith Lia.
From Stdlib Require Import SpecFloat.
From stdpp Require Import gmap strings list fin_maps.

Local Open Scope Z_scope.

(** ** Exceptions *)

Inductive exn : Type :=
| ValueError
| IndexError
| ZeroDivisionError.

Inductive res (A : Type) : Type :=
| Ret (a : A)
| Raise (e : exn).
Arguments Ret {A} a.
Arguments Raise {A} e.

#[global] Instance res_ret : MRet res := λ A a, Ret a.
#[global] Instance res_bind : MBind res := λ A B f m,
  match m with
  | Ret a => f a
  | Raise e => Raise e
  end.

(** ** ImageCache *)

Module ImageCache.

(** A pygame surface: its dimensions and an identifier of its pixel data.
    A surface object is always truthy; [None] is the only falsy value a
    caller passes for a surface. *)
Record Surface : Type := mkSurface {
  get_width : N;
  get_height : N;
  pixels : N
}.

#[global] Instance Surface_eq_dec : EqDecision Surface.
Proof. solve_decision. Defined.

Record t : Type := mk {
  cache : gmap string Surface;
  access_order : list string;
  max_memory : Z;
  current_memory : Z
}.

(** [ImageCache.__init__] *)
Definition init (max_memory_mb : Z) : t :=
  {| cache := ∅;
     access_order := [];
     max_memory := max_memory_mb * 1024 * 1024;
     current_memory := 0 |}.

(** An empty cache whose [max_memory] attribute is [budget] bytes. *)
Definition with_budget (budget : Z) : t :=
  {| cache := ∅; access_order := []; max_memory := budget; current_memory := 0 |}.

Definition _get_surface_size (surface : Surface) : Z :=
  Z.of_N (get_width surface) * Z.of_N (get_height surface) * 4.

(** [deque.remove(x)]: drops the first occurrence, [ValueError] if there is none. *)
Fixpoint deque_remove (x : string) (d : list string) : res (list string) :=
  match d with
  | [] => Raise ValueError
  | y :: d' =>
      if decide (x = y) then Ret d'
      else d'' ← deque_remove x d'; Ret (y :: d'')
  end.

Definition get (path : string) (self : t) : res (option Surface * t) :=
  match cache self !! path with
  | Some surface =>
      order ← deque_remove path (access_order self);
      Ret (Some surface,
           {| cache := cache self;
              access_order := order ++ [path];
              max_memory := max_memory self;
              current_memory := current_memory self |})
  | None => Ret (None, self)
  end.

(** The [while] loop of [put]: each iteration pops the left end of the
    deque, so the loop is a recursion on the deque. *)
Fixpoint evict (surface_size max_mem : Z) (order : list string)
    (entries : gmap string Surface) (mem : Z)
    : list string * gmap string Surface * Z :=
  match order with
  | [] => ([], entries, mem)
  | oldest :: rest =>
      if decide (mem + surface_size > max_mem) then
        match entries !! oldest with
        | Some old_surface =>
            evict surface_size max_mem rest (delete oldest entries)
                  (mem - _get_surface_size old_surface)
        | None => evict surface_size max_mem rest entries mem
        end
      else (order, entries, mem)
  end.

Definition put (path : string) (surface : option Surface) (self : t) : res t :=
  match surface with
  | None => Ret self
  | Some surf =>
      let surface_size := _get_surface_size surf in
      let '(order, entries, mem) :=
        evict surface_size (max_memory self) (access_order self)
              (cache self) (current_memory self) in
      '(order, mem) ←
        match entries !! path with
        | Some old_surface =>
            order' ← deque_remove path order;
            Ret (order', mem - _get_surface_size old_surface)
        | None => Ret (order, mem)
        end;
      Ret {| cache := <[path := surf]> entries;
             access_order := order ++ [path];
             max_memory := max_memory self;
             current_memory := mem + surface_size |}
  end.

(** [self.cache.clear()], as [main] calls it on the attribute: the dict is
    emptied, the deque and the byte counter are not touched. *)
Definition cache_clear (self : t) : t :=
  {| cache := ∅;
     access_order := access_order self;
     max_memory := max_memory self;
     current_memory := current_memory self |}.

(** Sum of the footprints of the entries the dict holds. *)
Definition footprint_sum (entries : gmap string Surface) : Z :=
  map_fold (λ _ surface acc, _get_surface_size surface + acc) 0 entries.

(** Operations of a client of the cache. *)
Inductive op : Type :=
| Get (path : string)
| Put (path : string) (surface : Surface)
| Clear.

Definition run_op (o : op) (c : t) : res t :=
  match o with
  | Get path => r ← get path c; Ret r.2
  | Put path surface => put path (Some surface) c
  | Clear => Ret (cache_clear c)
  end.

Fixpoint run (ops : list op) (c : t) : res t :=
  match ops with
  | [] => Ret c
  | o :: ops' => c' ← run_op o c; run ops' c'
  end.

(** *** Vocabulary of the statements about the cache *)

(** The dict, the deque and the byte counter agree: the deque lists the
    keys of the dict, each once, and the counter is the sum of the
    footprints. *)
Definition consistent (c : t) : Prop :=
  NoDup (access_order c) ∧
  (∀ k, k ∈ access_order c ↔ is_Some (cache c !! k)) ∧
  current_memory c = footprint_sum (cache c).

(** Every key of the dict is in the deque. *)
Definition tracked (c : t) : Prop :=
  ∀ k, is_Some (cache c !! k) → k ∈ access_order c.

(** Sum of the footprints [entries] holds for the keys of [keys]. *)
Definition footprints_of (entries : gmap string Surface) (keys : list string) : Z :=
  foldr (λ k acc, from_option _get_surface_size 0 (entries !! k) + acc) 0 keys.

(** [o] is a [Get], or a [Put] of an image of at most [budget] bytes. *)
Definition within (budget : Z) (o : op) : Prop :=
  match o with
  | Get _ => True
  | Put _ surface => _get_surface_size surface ≤ budget
  | Clear => False
  end.

(** [o] is a [Get] or a [Put]. *)
Definition get_or_put (o : op) : Prop :=
  match o with
  | Clear => False
  | _ => True
  end.

(** Bytes the counter counts and the dict does not hold. *)
Definition stale_bytes (c : t) : Z :=
  current_memory c - footprint_sum (cache c).

(** [o] is a [Get], an art-mode clear, or a [Put] of an image of at most
    [budget] bytes. *)
Definition within_or_clear (budget : Z) (o : op) : Prop :=
  match o with
  | Put _ surface => _get_surface_size surface ≤ budget
  | _ => True
  end.

(** The cache as [put] leaves it when its [self.access_order.remove(path)]
    raises: the evictions are done, the insertion is not. *)
Definition put_aborted (path : string) (surf : Surface) (self : t) : t :=
  let '(order, entries, mem) :=
    evict (_get_surface_size surf) (max_memory self) (access_order self)
          (cache self) (current_memory self) in
  {| cache := entries;
     access_order := order;
     max_memory := max_memory self;
     current_memory := mem |}.

(** Test images: 10 x 10 pixels are 400 bytes, 20 x 20 are 1600. *)
Definition img400 (n : N) : Surface := mkSurface 10 10 n.
Definition img1600 : Surface := mkSurface 20 20 0.

End ImageCache.

(** ** ImagePreloader *)

Module ImagePreloader.

(** [preload_queue] is the set of in-flight keys.  [executor] lists the
    tasks handed to the thread pool that have not finished yet, each by
    the path it was submitted with, in submission order. *)
Record t : Type := mk {
  preload_queue : gset string;
  executor : list string
}.

(** [ImagePreloader.__init__] *)
Definition init : t := {| preload_queue := ∅; executor := [] |}.

(** [(current_index + i) % len(images)] for [i] in [range(1, num_ahead + 1)],
    then [(current_index - i) % len(images)] for [i] in
    [range(1, num_behind + 1)]. *)
Definition indices (current_index len num_ahead num_behind : Z) : list Z :=
  ((λ i, (current_index + i) `mod` len) <$> seqZ 1 num_ahead) ++
  ((λ i, (current_index - i) `mod` len) <$> seqZ 1 num_behind).

(** [images[idx]] for an index that is not negative. *)
Definition image_at (images : list string) (idx : Z) : res string :=
  match images !! Z.to_nat idx with
  | Some path => Ret path
  | None => Raise IndexError
  end.

(** The body of the loop [for idx in indices] once [path = images[idx]]
    is known.  The [and] of the condition short-circuits: [cache.get] is
    called only for a path that is not in [preload_queue]. *)
Definition preload_path (path : string) (st : t * ImageCache.t)
    : res (t * ImageCache.t) :=
  let '(self, cache) := st in
  if decide (path ∈ preload_queue self) then Ret (self, cache)
  else
    '(surface, cache') ← ImageCache.get path cache;
    match surface with
    | Some _ => Ret (self, cache')
    | None =>
        Ret ({| preload_queue := {[path]} ∪ preload_queue self;
                executor := executor self ++ [path] |}, cache')
    end.

Fixpoint preload_paths (paths : list string) (st : t * ImageCache.t)
    : res (t * ImageCache.t) :=
  match paths with
  | [] => Ret st
  | path :: paths' => st' ← preload_path path st; preload_paths paths' st'
  end.

Fixpoint preload_loop (images : list string) (idxs : list Z)
    (st : t * ImageCache.t) : res (t * ImageCache.t) :=
  match idxs with
  | [] => Ret st
  | idx :: idxs' =>
      path ← image_at images idx;
      st' ← preload_path path st;
      preload_loop images idxs' st'
  end.

Definition preload_images (images : list string) (current_index : Z)
    (num_ahead num_behind : Z) (st : t * ImageCache.t)
    : res (t * ImageCache.t) :=
  match images with
  | [] => Ret st
  | _ :: _ =>
      preload_loop images
        (indices current_index (Z.of_nat (length images)) num_ahead num_behind)
        st
  end.

(** The [finally] clause of [_preload_task]: [preload_queue.discard(path)],
    after which the task is over and leaves the pool. *)
Fixpoint remove_task (path : string) (tasks : list string) : list string :=
  match tasks with
  | [] => []
  | p :: tasks' => if decide (path = p) then tasks' else p :: remove_task path tasks'
  end.

Definition task_done (path : string) (self : t) : t :=
  {| preload_queue := preload_queue self ∖ {[path]};
     executor := remove_task path (executor self) |}.

(** [_preload_task(path, cache)], [surface] being what
    [load_image_to_surface(path)] returned: [cache.put] if the surface is
    not [None] ([put] itself does nothing for [None]), and in any case,
    also when [put] raised, the [finally] clause. *)
Definition _preload_task (path : string) (surface : option ImageCache.Surface)
    (st : t * ImageCache.t) : t * res ImageCache.t :=
  (task_done path st.1, ImageCache.put path surface st.2).

(** One step of the program made of the thread that calls
    [preload_images] and the workers of the pool, on the preloader and the
    cache they share.  The thread runs loop iterations; a worker ends a
    task that is in the pool; and the cache changes under the hands of
    any of them (the [cache.put] of a task, the rendering path, the clear
    of art mode), which [step_cache] leaves unconstrained. *)
Inductive step : t * ImageCache.t → t * ImageCache.t → Prop :=
| step_iteration path st st' :
    preload_path path st = Ret st' →
    step st st'
| step_task_done path self cache :
    path ∈ executor self →
    step (self, cache) (task_done path self, cache)
| step_cache self cache cache' :
    step (self, cache) (self, cache').

(** How many tasks of the pool decode [path]. *)
Definition tasks_for (path : string) (self : t) : nat :=
  length (filter (λ p, p = path) (executor self)).

(** The in-flight set is the set of the paths with a task in the pool,
    and no path has two. *)
Definition deduplicated (self : t) : Prop :=
  ∀ path, tasks_for path self
          = if decide (path ∈ preload_queue self) then 1%nat else 0%nat.

(** The paths a call of [preload_images] goes through, in order. *)
Definition neighbours (images : list string) (current_index : Z)
    (num_ahead num_behind : Z) : list string :=
  omap (λ idx, images !! Z.to_nat idx)
       (indices current_index (Z.of_nat (length images)) num_ahead num_behind).

End ImagePreloader.

(** ** Python floats

    A Python [float] is an IEEE 754 binary64 number; its arithmetic is the
    correctly rounded one of [SpecFloat] at precision 53. *)

Module Float64.

Definition prec : Z := 53.
Definition emax : Z := 1024.

Abbreviation float := spec_float.

#[global] Instance float_eq_dec : EqDecision spec_float.
Proof. solve_decision. Defined.

Definition mul (x y : float) : float := SFmul prec emax x y.
Definition div (x y : float) : float := SFdiv prec emax x y.
Definition ltb (x y : float) : bool := SFltb x y.
Definition leb (x y : float) : bool := SFleb x y.

(** The literals of [main], as the doubles nearest to them:
    [1.0 = 0x10000000000000 * 2^-52], [4.0 = 0x10000000000000 * 2^-50],
    [0.1 = 0x1999999999999A * 2^-56], [1.1 = 0x1199999999999A * 2^-52]. *)
Definition lit_1_0 : float := S754_finite false 4503599627370496 (-52).
Definition lit_4_0 : float := S754_finite false 4503599627370496 (-50).
Definition lit_0_1 : float := S754_finite false 7205759403792794 (-56).
Definition lit_1_1 : float := S754_finite false 4953959590107546 (-52).

(** The float an integer converts to, for integers below [2^53]. *)
Definition of_Z (n : Z) : float := binary_normalize prec emax n 0 false.

(** Built-in [min(a, b)] and [max(a, b)]: the first argument unless the
    second is strictly smaller (strictly greater). *)
Definition min (a b : float) : float := if ltb b a then b else a.
Definition max (a b : float) : float := if ltb a b then b else a.

(** The rational a finite float denotes. *)
Definition to_Q (x : float) : Q :=
  match x with
  | S754_finite s m e =>
      let q := if decide (0 ≤ e)%Z then inject_Z (Z.pos m * 2 ^ e)
               else Qmake (Z.pos m) (Z.to_pos (2 ^ (- e))) in
      if s then Qopp q else q
  | _ => 0%Q
  end.

End Float64.

(** ** The main loop: slideshow timer and event handling *)

Module Viewer.

Inductive copy_mode : Type := move | copy.

Inductive key : Type :=
| K_r | K_q | K_RIGHT | K_LEFT | K_h | K_c | K_m | K_a | K_SPACE
| K_DELETE
| K_digit (n : Z)      (* [K_1] .. [K_9], [n = event.key - K_0] *)
| K_CAPSLOCK
| K_other.

Inductive event : Type :=
| QUIT
| MOUSEBUTTONDOWN (button : Z)
| MOUSEMOTION (left_button : bool) (rel_x rel_y : Z)
| KEYDOWN (k : key)
| OTHER.

(** The local variables of [main] that the loop reads and writes. *)
Record state : Type := mk {
  images : list string;
  current_index : Z;
  running : bool;
  mode : copy_mode;
  cache : ImageCache.t;
  zoom : Float64.float;
  pan_x : Z;
  pan_y : Z;
  slideshow_active : bool;
  slideshow_delay : Z;
  last_slide_time : Z;
  art_mode : bool;
  mosaic_mode : bool
}.

(** The state [main] enters the loop with; [now] is the value of
    [pygame.time.get_ticks()] at that point. *)
Definition init (images : list string) (now : Z) : state :=
  {| images := images; current_index := 0; running := true; mode := move;
     cache := ImageCache.init 500;
     zoom := Float64.lit_1_0; pan_x := 0; pan_y := 0;
     slideshow_active := false; slideshow_delay := 3000;
     last_slide_time := now;
     art_mode := false; mosaic_mode := false |}.

Definition set_images (v : list string) (s : state) : state :=
  mk v (current_index s) (running s) (mode s) (cache s) (zoom s) (pan_x s)
     (pan_y s) (slideshow_active s) (slideshow_delay s) (last_slide_time s)
     (art_mode s) (mosaic_mode s).
Definition set_current_index (v : Z) (s : state) : state :=
  mk (images s) v (running s) (mode s) (cache s) (zoom s) (pan_x s)
     (pan_y s) (slideshow_active s) (slideshow_delay s) (last_slide_time s)
     (art_mode s) (mosaic_mode s).
Definition set_running (v : bool) (s : state) : state :=
  mk (images s) (current_index s) v (mode s) (cache s) (zoom s) (pan_x s)
     (pan_y s) (slideshow_active s) (slideshow_delay s) (last_slide_time s)
     (art_mode s) (mosaic_mode s).
Definition set_mode (v : copy_mode) (s : state) : state :=
  mk (images s) (current_index s) (running s) v (cache s) (zoom s) (pan_x s)
     (pan_y s) (slideshow_active s) (slideshow_delay s) (last_slide_time s)
     (art_mode s) (mosaic_mode s).
Definition set_cache (v : ImageCache.t) (s : state) : state :=
  mk (images s) (current_index s) (running s) (mode s) v (zoom s) (pan_x s)
     (pan_y s) (slideshow_active s) (slideshow_delay s) (last_slide_time s)
     (art_mode s) (mosaic_mode s).
Definition set_zoom (v : Float64.float) (s : state) : state :=
  mk (images s) (current_index s) (running s) (mode s) (cache s) v (pan_x s)
     (pan_y s) (slideshow_active s) (slideshow_delay s) (last_slide_time s)
     (art_mode s) (mosaic_mode s).
Definition set_pan (x y : Z) (s : state) : state :=
  mk (images s) (current_index s) (running s) (mode s) (cache s) (zoom s) x
     y (slideshow_active s) (slideshow_delay s) (last_slide_time s)
     (art_mode s) (mosaic_mode s).
Definition set_slideshow_active (v : bool) (s : state) : state :=
  mk (images s) (current_index s) (running s) (mode s) (cache s) (zoom s)
     (pan_x s) (pan_y s) v (slideshow_delay s) (last_slide_time s)
     (art_mode s) (mosaic_mode s).
Definition set_last_slide_time (v : Z) (s : state) : state :=
  mk (images s) (current_index s) (running s) (mode s) (cache s) (zoom s)
     (pan_x s) (pan_y s) (slideshow_active s) (slideshow_delay s) v
     (art_mode s) (mosaic_mode s).
Definition set_art_mode (v : bool) (s : state) : state :=
  mk (images s) (current_index s) (running s) (mode s) (cache s) (zoom s)
     (pan_x s) (pan_y s) (slideshow_active s) (slideshow_delay s)
     (last_slide_time s) v (mosaic_mode s).
Definition set_mosaic_mode (v : bool) (s : state) : state :=
  mk (images s) (current_index s) (running s) (mode s) (cache s) (zoom s)
     (pan_x s) (pan_y s) (slideshow_active s) (slideshow_delay s)
     (last_slide_time s) (art_mode s) v.

(** [a % b] on integers. *)
Definition py_mod (a b : Z) : res Z :=
  if decide (b = 0) then Raise ZeroDivisionError else Ret (a `mod` b).

(** The position [l[i]] and [l.pop(i)] address: negative indices count
    from the end. *)
Definition py_index {A} (l : list A) (i : Z) : res nat :=
  let len := Z.of_nat (length l) in
  if decide (0 ≤ i < len) then Ret (Z.to_nat i)
  else if decide (- len ≤ i < 0) then Ret (Z.to_nat (i + len))
  else Raise IndexError.

Definition py_pop {A} (l : list A) (i : Z) : res (list A) :=
  n ← py_index l i; Ret (delete n l).

(** [images.pop(current_index)] and what follows it in the three places
    of the loop that drop the current image. *)
Definition drop_current (s : state) : res state :=
  images' ← py_pop (images s) (current_index s);
  let s' := set_images images' s in
  match images' with
  | [] => Ret (set_running false s')
  | _ :: _ =>
      idx ← py_mod (current_index s') (Z.of_nat (length images'));
      Ret (set_current_index idx s')
  end.

(** Lines 397-402: the slideshow check of a frame, [current_time] being
    the value of [pygame.time.get_ticks()]. *)
Definition slideshow_step (current_time : Z) (s : state) : res state :=
  if slideshow_active s then
    if decide (current_time - last_slide_time s > slideshow_delay s) then
      idx ← py_mod (current_index s + 1) (Z.of_nat (length (images s)));
      Ret (set_last_slide_time current_time (set_current_index idx s))
    else Ret s
  else Ret s.

Definition handle_key (k : key) (s : state) : res state :=
  let s :=
    match k with
    | K_r => set_pan 0 0 (set_zoom Float64.lit_1_0 s)
    | _ => s
    end in
  match k with
  | K_q => Ret (set_running false s)
  | K_RIGHT =>
      idx ← py_mod (current_index s + 1) (Z.of_nat (length (images s)));
      Ret (set_current_index idx s)
  | K_LEFT =>
      idx ← py_mod (current_index s - 1) (Z.of_nat (length (images s)));
      Ret (set_current_index idx s)
  | K_h => Ret s
  | K_c => Ret s
  | K_m => Ret (set_mosaic_mode (negb (mosaic_mode s)) s)
  | K_a =>
      Ret (set_cache (ImageCache.cache_clear (cache s))
             (set_art_mode (negb (art_mode s)) s))
  | K_SPACE => Ret (set_slideshow_active (negb (slideshow_active s)) s)
  | K_DELETE =>
      _ ← py_index (images s) (current_index s);
      drop_current s
  | K_digit _ =>
      _ ← py_index (images s) (current_index s);
      match mode s with
      | move => drop_current s
      | copy => Ret s
      end
  | K_CAPSLOCK =>
      Ret (set_mode (match mode s with move => copy | copy => move end) s)
  | K_r | K_other => Ret s
  end.

(** Lines 405-463: one iteration of [for event in pygame.event.get()]. *)
Definition handle_event (e : event) (s : state) : res state :=
  match e with
  | QUIT => Ret (set_running false s)
  | MOUSEBUTTONDOWN button =>
      if decide (button = 4) then
        Ret (set_zoom (Float64.min Float64.lit_4_0
                         (Float64.mul (zoom s) Float64.lit_1_1)) s)
      else if decide (button = 5) then
        Ret (set_zoom (Float64.max Float64.lit_0_1
                         (Float64.div (zoom s) Float64.lit_1_1)) s)
      else Ret s
  | MOUSEMOTION left_button rel_x rel_y =>
      if left_button then Ret (set_pan (pan_x s + rel_x) (pan_y s + rel_y) s)
      else Ret s
  | KEYDOWN k => handle_key k s
  | OTHER => Ret s
  end.

Fixpoint handle_events (events : list event) (s : state) : res state :=
  match events with
  | [] => Ret s
  | e :: events' => s' ← handle_event e s; handle_events events' s'
  end.

(** Lines 397-463: what a frame does after rendering and preloading. *)
Definition frame_tail (current_time : Z) (events : list event) (s : state)
    : res state :=
  s' ← slideshow_step current_time s; handle_events events s'.

(** The zoom events of the mouse wheel. *)
Inductive zoom_event : Type := wheel_up | wheel_down.

Definition zoom_button (z : zoom_event) : event :=
  match z with
  | wheel_up => MOUSEBUTTONDOWN 4
  | wheel_down => MOUSEBUTTONDOWN 5
  end.

(** The zoom after a wheel event at zoom [x]. *)
Definition wheel (z : zoom_event) (x : Float64.float) : Float64.float :=
  match z with
  | wheel_up => Float64.min Float64.lit_4_0 (Float64.mul x Float64.lit_1_1)
  | wheel_down => Float64.max Float64.lit_0_1 (Float64.div x Float64.lit_1_1)
  end.

(** The zoom values the wheel reaches from [1.0], by exhaustive search:
    [explore] takes a value of [todo], adds its two successors that were
    not seen before, and goes on until [todo] is empty. *)
Fixpoint explore (fuel : nat) (seen todo : list Float64.float)
    : list Float64.float :=
  match fuel, todo with
  | S fuel', x :: todo' =>
      let new := filter (λ y, y ∉ seen)
                   (remove_dups [wheel wheel_up x; wheel wheel_down x]) in
      explore fuel' (new ++ seen) (todo' ++ new)
  | _, _ => seen
  end.

Definition zoom_values : list Float64.float :=
  Eval vm_compute in explore 1000 [Float64.lit_1_0] [Float64.lit_1_0].

Definition zoom_in_range (x : Float64.float) : bool :=
  Float64.leb Float64.lit_0_1 x && Float64.leb x Float64.lit_4_0 &&
  Qle_bool (1 # 10) (Float64.to_Q x) && Qle_bool (Float64.to_Q x) 4.

(** A viewer on three images, [zoom] and [pan] away from their defaults. *)
Definition sample (now : Z) : state :=
  set_pan 5 (-7) (set_zoom Float64.lit_1_1 (init ["a.png"; "b.png"; "c.png"] now)).

(** [current_index] addresses an image of the list. *)
Definition well_indexed (s : state) : Prop :=
  0 ≤ current_index s < Z.of_nat (length (images s)).

(** The events that drop no image: all but [Delete] and the digit keys. *)
Definition keeps_images (e : event) : Prop :=
  match e with
  | KEYDOWN K_DELETE | KEYDOWN (K_digit _) => False
  | _ => True
  end.

(** A motion of the mouse with the left button held. *)
Definition drag (rel : Z * Z) : event := MOUSEMOTION true rel.1 rel.2.

(** The sum of a list of integers. *)
Definition total (l : list Z) : Z := foldr Z.add 0 l.

End Viewer.

(** ** Rendering: the cache side of [display_image] and [create_mosaic],
    and the body of the loop of [main] *)

Module Render.

(** [display_image(screen, image_path, cache, ...)] as far as the cache and
    the result go.  [loaded] is what [load_image_to_surface] returns if it
    is called; [drawn] tells whether the drawing statements after the cache
    access run to their end.  The [except] clause turns every exception
    raised in the body into the result [False]; when [cache.get] raises the
    cache is as it was, when [cache.put] raises it is [put_aborted]. *)
Definition display_image (image_path : string)
    (loaded : option ImageCache.Surface) (drawn : bool) (cache : ImageCache.t)
    : bool * ImageCache.t :=
  match ImageCache.get image_path cache with
  | Raise _ => (false, cache)
  | Ret (Some _, cache1) => (drawn, cache1)
  | Ret (None, cache1) =>
      match loaded with
      | None => (false, cache1)
      | Some surface =>
          match ImageCache.put image_path (Some surface) cache1 with
          | Ret cache2 => (drawn, cache2)
          | Raise _ =>
              (false, ImageCache.put_aborted image_path surface cache1)
          end
      end
  end.

(** The cache key of a thumbnail, [f"thumb_{img_path}"]. *)
Definition thumb_key (img_path : string) : string := "thumb_" +:+ img_path.

(** The loop of [create_mosaic] on the cache; [load_thumbnail img_path] is
    what [load_image_to_surface(img_path, thumbnail_size=...)] returns.
    Nothing catches an exception here; scaling and blitting a thumbnail
    are taken to succeed. *)
Fixpoint mosaic_thumbnails (images : list string)
    (load_thumbnail : string → option ImageCache.Surface)
    (cache : ImageCache.t) : res ImageCache.t :=
  match images with
  | [] => Ret cache
  | img_path :: images' =>
      '(surface, cache1) ← ImageCache.get (thumb_key img_path) cache;
      cache2 ←
        match surface with
        | Some _ => Ret cache1
        | None =>
            match load_thumbnail img_path with
            | Some thumbnail =>
                ImageCache.put (thumb_key img_path) (Some thumbnail) cache1
            | None => Ret cache1
            end
        end;
      mosaic_thumbnails images' load_thumbnail cache2
  end.

Definition create_mosaic (images : list string)
    (load_thumbnail : string → option ImageCache.Surface)
    (cache : ImageCache.t) : res (bool * ImageCache.t) :=
  match images with
  | [] => Ret (false, cache)
  | _ :: _ =>
      cache' ← mosaic_thumbnails images load_thumbnail cache;
      Ret (true, cache')
  end.

(** What one pass of the loop of [main] takes from outside: the results of
    the decoders, whether drawing succeeds, the clock and the events. *)
Record frame_input : Type := mk_input {
  loaded : option ImageCache.Surface;
  drawn : bool;
  load_thumbnail : string → option ImageCache.Surface;
  current_time : Z;
  events : list Viewer.event
}.

(** Lines 394-463: preloading, the slideshow check and the events. *)
Definition frame_rest (inp : frame_input) (s : Viewer.state)
    (preloader : ImagePreloader.t) : res (Viewer.state * ImagePreloader.t) :=
  '(preloader', cache') ←
    ImagePreloader.preload_images (Viewer.images s) (Viewer.current_index s)
      2 1 (preloader, Viewer.cache s);
  s' ← Viewer.frame_tail (current_time inp) (events inp)
         (Viewer.set_cache cache' s);
  Ret (s', preloader').

(** Lines 381-463: one pass of [while running]. *)
Definition frame (inp : frame_input) (s : Viewer.state)
    (preloader : ImagePreloader.t) : res (Viewer.state * ImagePreloader.t) :=
  if Viewer.mosaic_mode s then
    '(ok, cache') ← create_mosaic (Viewer.images s) (load_thumbnail inp)
                      (Viewer.cache s);
    if (ok : bool) then frame_rest inp (Viewer.set_cache cache' s) preloader
    else Ret (Viewer.set_running false (Viewer.set_cache cache' s), preloader)
  else
    n ← Viewer.py_index (Viewer.images s) (Viewer.current_index s);
    match Viewer.images s !! n with
    | None => Raise IndexError
    | Some image_path =>
        let '(ok, cache') :=
          display_image image_path (loaded inp) (drawn inp) (Viewer.cache s) in
        if ok then frame_rest inp (Viewer.set_cache cache' s) preloader
        else
          s' ← Viewer.drop_current (Viewer.set_cache cache' s);
          Ret (s', preloader)
    end.

End Render.

(** ** The grid of [create_mosaic] and [save_contact_sheet] *)

Module Layout.

(** [math.sqrt] on a float: the correctly rounded square root. *)
Definition sqrt (x : Float64.float) : Float64.float :=
  SFsqrt Float64.prec Float64.emax x.

(** [math.ceil] on a float; [None] where Python raises (infinities and
    NaN). *)
Definition ceil (x : Float64.float) : option Z :=
  match x with
  | S754_zero _ => Some 0
  | S754_finite s m e =>
      let n := if s then Z.neg m else Z.pos m in
      Some (if decide (0 ≤ e) then n * 2 ^ e else - ((- n) `div` 2 ^ (- e)))
  | _ => None
  end.

(** [math.ceil(math.sqrt(num_images))] *)
Definition grid_size (num_images : Z) : option Z :=
  ceil (sqrt (Float64.of_Z num_images)).


(** Where [save_contact_sheet] pastes image number [i], whose thumbnail is
    [img_width] x [img_height], and the side of the square sheet. *)
Definition contact_sheet_position (num_images i img_width img_height : Z)
    : option (Z * Z * Z) :=
  g ← grid_size num_images;
  if decide (g = 0) then None
  else
    let row := i `div` g in
    let col := i `mod` g in
    let x := col * 200 in
    let y := row * 200 in
    let x_offset := (200 - img_width) `div` 2 in
    let y_offset := (200 - img_height) `div` 2 in
    Some (x + x_offset, y + y_offset, g * 200).

(** The numbers of images the grid size is checked for, one by one. *)
Definition checked_counts : list Z := seqZ 1 5000.

Definition grid_size_exact (n : Z) : bool :=
  match grid_size n with
  | Some g => bool_decide (0 < g ∧ (g - 1) * (g - 1) < n ∧ n ≤ g * g)
  | None => false
  end.

End Layout.

(** * Properties *)

(** ** Footprints *)

Section footprints.
Import ImageCache.
Implicit Types (entries : gmap string Surface) (surface : Surface).

Lemma surface_size_nonneg surface : 0 ≤ _get_surface_size surface.
Proof. unfold _get_surface_size. lia. Qed.

Lemma footprint_sum_empty : footprint_sum ∅ = 0.
Proof. unfold footprint_sum. by rewrite map_fold_empty. Qed.

Lemma footprint_sum_insert entries k surface :
  entries !! k = None →
  footprint_sum (<[k := surface]> entries)
  = _get_surface_size surface + footprint_sum entries.
Proof.
  intros Hk. unfold footprint_sum.
  rewrite map_fold_insert_L; [done | | done].
  intros. lia.
Qed.

Lemma footprint_sum_delete entries k surface :
  entries !! k = Some surface →
  footprint_sum (delete k entries)
  = footprint_sum entries - _get_surface_size surface.
Proof.
  intros Hk. unfold footprint_sum.
  rewrite (map_fold_delete_L _ _ k surface entries); [lia | | done].
  intros. lia.
Qed.

Lemma footprint_sum_nonneg entries : 0 ≤ footprint_sum entries.
Proof.
  induction entries as [|k surface entries Hk IH] using map_ind.
  - by rewrite footprint_sum_empty.
  - rewrite footprint_sum_insert by done.
    pose proof (surface_size_nonneg surface). lia.
Qed.

Lemma footprint_sum_singleton k surface :
  footprint_sum {[k := surface]} = _get_surface_size surface.
Proof.
  rewrite <- insert_empty, footprint_sum_insert, footprint_sum_empty.
  - lia.
  - apply lookup_empty.
Qed.

Lemma footprints_of_delete entries k keys :
  k ∉ keys → footprints_of (delete k entries) keys = footprints_of entries keys.
Proof.
  induction keys as [|j keys IH]; [done|].
  rewrite not_elem_of_cons. intros [Hne Hk]. simpl.
  rewrite lookup_delete_ne by done. by rewrite IH.
Qed.
End footprints.

(** ** The deque *)

Section deque.
Import ImageCache.

Lemma filter_ne_id (x : string) (d : list string) :
  x ∉ d → filter (λ y, y ≠ x) d = d.
Proof.
  induction d as [|y d IH]; [done|].
  rewrite not_elem_of_cons. intros [Hne Hx].
  rewrite filter_cons_True by congruence. by rewrite IH.
Qed.

Lemma deque_remove_filter x d :
  NoDup d → x ∈ d → deque_remove x d = Ret (filter (λ y, y ≠ x) d).
Proof.
  induction d as [|y d IH]; intros Hnd Hx.
  - by apply elem_of_nil in Hx.
  - apply NoDup_cons in Hnd as [Hy Hnd]. simpl.
    destruct (decide (x = y)) as [->|Hne].
    + rewrite filter_cons_False by (intros H; by apply H).
      f_equal. symmetry. by apply filter_ne_id.
    + apply elem_of_cons in Hx as [Hx|Hx]; [done|].
      rewrite IH by done. simpl.
      rewrite filter_cons_True by congruence. done.
Qed.

Lemma deque_remove_elem x d :
  x ∈ d → ∃ d', deque_remove x d = Ret d' ∧
    (∀ y, y ∈ d' → y ∈ d) ∧ (∀ y, y ∈ d → y ≠ x → y ∈ d').
Proof.
  induction d as [|y d IH]; intros Hx.
  - by apply elem_of_nil in Hx.
  - simpl. destruct (decide (x = y)) as [->|Hne].
    + exists d. split; [done|]. split.
      * intros z Hz. by apply elem_of_cons; right.
      * intros z Hz Hzy. apply elem_of_cons in Hz as [Hz|Hz]; done.
    + apply elem_of_cons in Hx as [Hx|Hx]; [done|].
      destruct (IH Hx) as (d' & -> & Hsub & Hsup). simpl.
      exists (y :: d'). split; [done|]. split.
      * intros z Hz. apply elem_of_cons in Hz as [->|Hz];
          apply elem_of_cons; auto.
      * intros z Hz Hzx. apply elem_of_cons in Hz as [->|Hz];
          apply elem_of_cons; auto.
Qed.
End deque.

(** ** The eviction loop *)

Section eviction.
Import ImageCache.
Implicit Types (entries : gmap string Surface) (order keys : list string).

Lemma foldr_delete_delete k entries keys :
  foldr delete (delete k entries) keys = delete k (foldr delete entries keys).
Proof.
  induction keys as [|j keys IH]; simpl; [done|].
  rewrite IH. apply delete_delete.
Qed.

Lemma lookup_foldr_delete entries keys k :
  foldr delete entries keys !! k = if decide (k ∈ keys) then None else entries !! k.
Proof.
  induction keys as [|j keys IH]; simpl.
  - destruct (decide (k ∈ [])) as [Hk|Hk]; [by apply elem_of_nil in Hk | done].
  - destruct (decide (k ∈ j :: keys)) as [Hk|Hk].
    + destruct (decide (j = k)) as [->|Hne]; [apply lookup_delete_eq|].
      rewrite lookup_delete_ne by done. rewrite IH.
      apply elem_of_cons in Hk as [Hk|Hk]; [congruence|].
      by destruct (decide (k ∈ keys)).
    + apply not_elem_of_cons in Hk as [Hne Hk].
      rewrite lookup_delete_ne by done. rewrite IH.
      by destruct (decide (k ∈ keys)).
Qed.

(** The loop evicts a prefix of the deque, the shortest one after which
    the new surface fits, or the whole deque. *)
Lemma evict_prefix size max_mem order entries mem :
  NoDup order →
  (∀ k, k ∈ order → is_Some (entries !! k)) →
  ∃ n : nat,
    (n ≤ length order)%nat ∧
    evict size max_mem order entries mem
    = (drop n order, foldr delete entries (take n order),
       mem - footprints_of entries (take n order)) ∧
    (∀ m : nat, (m < n)%nat →
       mem - footprints_of entries (take m order) + size > max_mem) ∧
    (n = length order ∨
     mem - footprints_of entries (take n order) + size ≤ max_mem).
Proof.
  revert entries mem.
  induction order as [|oldest rest IH]; intros entries mem Hnd Hin.
  - exists 0%nat. simpl. split; [lia|]. split; [f_equal; lia|].
    split; [intros m Hm; lia | by left].
  - simpl. destruct (decide (mem + size > max_mem)) as [Hover|Hfits].
    + apply NoDup_cons in Hnd as [Hold Hnd].
      destruct (Hin oldest) as [old Hlook]; [apply elem_of_cons; auto|].
      rewrite Hlook.
      destruct (IH (delete oldest entries) (mem - _get_surface_size old) Hnd)
        as (n & Hn & Hev & Hmin & Hstop).
      { intros k Hk. rewrite lookup_delete_ne by (intros ->; done).
        apply Hin, elem_of_cons; auto. }
      assert (Hfp : ∀ m : nat,
        footprints_of entries (take (S m) (oldest :: rest))
        = _get_surface_size old
          + footprints_of (delete oldest entries) (take m rest)).
      { intros m. simpl. rewrite Hlook. simpl.
        rewrite footprints_of_delete; [done|].
        intros Hm. apply Hold. by eapply subseteq_take. }
      exists (S n). split; [simpl; lia|]. split; [|split].
      * rewrite Hev, Hfp. simpl. rewrite foldr_delete_delete.
        f_equal. lia.
      * intros [|m] Hm; [simpl; lia|]. rewrite Hfp.
        specialize (Hmin m ltac:(lia)). lia.
      * destruct Hstop as [->|Hstop]; [by left | right].
        rewrite Hfp. lia.
    + exists 0%nat. simpl. split; [lia|]. split; [f_equal; lia|].
      split; [intros m Hm; lia | right; lia].
Qed.

(** The loop keeps a consistent cache consistent, and stops with room for
    the new surface or with nothing left to evict. *)
Lemma evict_consistent size max_mem order entries mem order' entries' mem' :
  evict size max_mem order entries mem = (order', entries', mem') →
  NoDup order →
  (∀ k, k ∈ order ↔ is_Some (entries !! k)) →
  mem = footprint_sum entries →
  NoDup order' ∧
  (∀ k, k ∈ order' ↔ is_Some (entries' !! k)) ∧
  mem' = footprint_sum entries' ∧
  (mem' + size ≤ max_mem ∨ order' = []).
Proof.
  revert entries mem.
  induction order as [|oldest rest IH]; intros entries mem Hev Hnd Hkeys Hmem.
  - simpl in Hev. injection Hev as <- <- <-. auto.
  - simpl in Hev. destruct (decide (mem + size > max_mem)) as [Hover|Hfits].
    + apply NoDup_cons in Hnd as [Hold Hnd].
      destruct (proj1 (Hkeys oldest)) as [old Hlook]; [apply elem_of_cons; auto|].
      rewrite Hlook in Hev.
      apply IH in Hev; [done | done | |].
      * intros k. destruct (decide (k = oldest)) as [->|Hne].
        -- rewrite lookup_delete_eq. split; [done | by intros [? ?]].
        -- rewrite lookup_delete_ne by done. rewrite <- Hkeys.
           rewrite elem_of_cons. split; [auto | by intros [?|?]].
      * subst mem. symmetry. by apply footprint_sum_delete.
    + injection Hev as <- <- <-. repeat split; try done; try apply Hkeys.
      left. lia.
Qed.

(** Whatever the deque holds, the loop returns a suffix of it, deletes
    only keys it popped, and takes from the counter what it deleted. *)
Lemma evict_tracked size max_mem order entries mem order' entries' mem' :
  evict size max_mem order entries mem = (order', entries', mem') →
  (∀ k, is_Some (entries !! k) → k ∈ order) →
  (∀ k, is_Some (entries' !! k) → k ∈ order') ∧
  (∀ k, k ∈ order' → k ∈ order).
Proof.
  revert entries mem.
  induction order as [|oldest rest IH]; intros entries mem Hev Htr.
  - simpl in Hev. injection Hev as <- <- <-. auto.
  - simpl in Hev. destruct (decide (mem + size > max_mem)) as [Hover|Hfits].
    + assert (Hrest : ∀ k, is_Some (delete oldest entries !! k) → k ∈ rest).
      { intros k. destruct (decide (k = oldest)) as [->|Hne].
        - rewrite lookup_delete_eq. by intros [? ?].
        - rewrite lookup_delete_ne by done. intros Hk.
          apply Htr, elem_of_cons in Hk as [Hk|Hk]; done. }
      destruct (entries !! oldest) as [old|] eqn:Hlook.
      * apply IH in Hev as [H1 H2]; [|done].
        split; [done|]. intros k Hk. apply elem_of_cons; auto.
      * rewrite delete_id in Hrest by done.
        apply IH in Hev as [H1 H2]; [|done].
        split; [done|]. intros k Hk. apply elem_of_cons; auto.
    + injection Hev as <- <- <-. auto.
Qed.
End eviction.

(** ** [get] and [put] on a consistent cache *)

Section consistent_cache.
Import ImageCache.
Implicit Types (c : t) (surface : Surface) (path : string).

Lemma consistent_init max_memory_mb : consistent (init max_memory_mb).
Proof.
  unfold consistent, init; simpl.
  split; [apply NoDup_nil_2|]. split; [|by rewrite footprint_sum_empty].
  intros k. split.
  - intros Hk. by apply elem_of_nil in Hk.
  - rewrite lookup_empty. by intros [? ?].
Qed.

Lemma consistent_with_budget budget : consistent (with_budget budget).
Proof. apply (consistent_init 0). Qed.

Lemma consistent_tracked c : consistent c → tracked c.
Proof. intros (_ & Hkeys & _) k Hk. by apply Hkeys. Qed.

Lemma get_consistent path c :
  consistent c →
  ∃ c', get path c = Ret (cache c !! path, c') ∧
        consistent c' ∧
        cache c' = cache c ∧
        max_memory c' = max_memory c ∧
        current_memory c' = current_memory c ∧
        access_order c' =
          match cache c !! path with
          | Some _ => filter (λ y, y ≠ path) (access_order c) ++ [path]
          | None => access_order c
          end.
Proof.
  intros (Hnd & Hkeys & Hmem). unfold get.
  destruct (cache c !! path) as [surface|] eqn:Hlook.
  - rewrite deque_remove_filter; [|done|by apply Hkeys]. simpl.
    eexists. split; [done|]. simpl.
    split; [|done]. unfold consistent; simpl.
    split; [|split; [intros k; split|done]].
    + apply NoDup_app. split; [by apply NoDup_filter|]. split; [|apply NoDup_singleton].
      intros x [Hx _]%list_elem_of_filter Hx'%list_elem_of_singleton. done.
    + rewrite elem_of_app, list_elem_of_filter, list_elem_of_singleton.
      intros [[_ Hk]| ->]; [by apply Hkeys | by rewrite Hlook].
    + intros Hk. rewrite elem_of_app, list_elem_of_filter, list_elem_of_singleton.
      destruct (decide (k = path)) as [->|Hne]; [by right | left].
      split; [done | by apply Hkeys].
  - exists c. split; [done|]. split; [by split|done].
Qed.

Lemma put_unfold path surface c order entries mem :
  evict (_get_surface_size surface) (max_memory c) (access_order c)
        (cache c) (current_memory c) = (order, entries, mem) →
  put path (Some surface) c =
    match entries !! path with
    | Some old_surface =>
        order' ← deque_remove path order;
        Ret {| cache := <[path := surface]> entries;
               access_order := order' ++ [path];
               max_memory := max_memory c;
               current_memory := mem - _get_surface_size old_surface
                                 + _get_surface_size surface |}
    | None =>
        Ret {| cache := <[path := surface]> entries;
               access_order := order ++ [path];
               max_memory := max_memory c;
               current_memory := mem + _get_surface_size surface |}
    end.
Proof.
  intros Hev. unfold put. rewrite Hev.
  destruct (entries !! path) as [old|]; [|done].
  simpl. by destruct (deque_remove path order).
Qed.

Lemma put_consistent path surface c :
  consistent c →
  ∃ c', put path (Some surface) c = Ret c' ∧
        consistent c' ∧
        max_memory c' = max_memory c ∧
        cache c' !! path = Some surface ∧
        last (access_order c') = Some path ∧
        (_get_surface_size surface ≤ max_memory c →
         current_memory c' ≤ max_memory c).
Proof.
  intros (Hnd & Hkeys & Hmem).
  destruct (evict (_get_surface_size surface) (max_memory c) (access_order c)
              (cache c) (current_memory c)) as [[order entries] mem] eqn:Hev.
  rewrite (put_unfold _ _ _ _ _ _ Hev).
  destruct (evict_consistent _ _ _ _ _ _ _ _ Hev Hnd Hkeys Hmem)
    as (Hnd' & Hkeys' & Hmem' & Hstop).
  destruct (entries !! path) as [old|] eqn:Hlook.
  - assert (Hin : path ∈ order) by (apply Hkeys'; by rewrite Hlook).
    rewrite deque_remove_filter by done. simpl.
    eexists. split; [done|]. simpl.
    split; [|split; [done|split; [apply lookup_insert_eq|split; [apply last_snoc|]]]].
    + unfold consistent; simpl. split; [|split; [intros k; split|]].
      * apply NoDup_app. split; [by apply NoDup_filter|].
        split; [|apply NoDup_singleton].
        intros x [Hx _]%list_elem_of_filter Hx'%list_elem_of_singleton. done.
      * rewrite elem_of_app, list_elem_of_filter, list_elem_of_singleton.
        intros [[Hne Hk]| ->]; [|by rewrite lookup_insert_eq].
        rewrite lookup_insert_ne by done. by apply Hkeys'.
      * rewrite elem_of_app, list_elem_of_filter, list_elem_of_singleton.
        destruct (decide (k = path)) as [->|Hne]; [by right|].
        rewrite lookup_insert_ne by done. intros Hk. left.
        split; [done | by apply Hkeys'].
      * rewrite <- insert_delete_eq, footprint_sum_insert by apply lookup_delete_eq.
        rewrite (footprint_sum_delete _ _ old) by done. lia.
    + intros Hfit. pose proof (surface_size_nonneg old).
      destruct Hstop as [Hstop| ->]; [lia | by apply elem_of_nil in Hin].
  - assert (Hnin : path ∉ order).
    { intros Hin%Hkeys'. rewrite Hlook in Hin. by destruct Hin. }
    eexists. split; [done|]. simpl.
    split; [|split; [done|split; [apply lookup_insert_eq|split; [apply last_snoc|]]]].
    + unfold consistent; simpl. split; [|split; [intros k; split|]].
      * apply NoDup_app. split; [done|]. split; [|apply NoDup_singleton].
        intros x Hx Hx'%list_elem_of_singleton. congruence.
      * rewrite elem_of_app, list_elem_of_singleton.
        intros [Hk| ->]; [|by rewrite lookup_insert_eq].
        rewrite lookup_insert_ne by (intros ->; done). by apply Hkeys'.
      * rewrite elem_of_app, list_elem_of_singleton.
        destruct (decide (k = path)) as [->|Hne]; [by right|].
        rewrite lookup_insert_ne by done. intros Hk. left. by apply Hkeys'.
      * rewrite footprint_sum_insert by done. lia.
    + intros Hfit. destruct Hstop as [Hstop| ->]; [lia|].
      assert (entries = ∅) as ->.
      { apply map_empty. intros k. apply eq_None_not_Some.
        intros Hk%Hkeys'. by apply elem_of_nil in Hk. }
      rewrite footprint_sum_empty in Hmem'. lia.
Qed.
End consistent_cache.

(** ** [get], [put] and the art-mode clear on any cache *)

Section tracked_cache.
Import ImageCache.
Implicit Types (c : t) (surface : Surface) (path : string).

Lemma get_tracked path c :
  tracked c → ∃ c', get path c = Ret (cache c !! path, c') ∧ tracked c'.
Proof.
  intros Htr. unfold get.
  destruct (cache c !! path) as [surface|] eqn:Hlook; [|by exists c].
  destruct (deque_remove_elem path (access_order c)) as (d & -> & Hsub & Hsup).
  { apply Htr. by rewrite Hlook. }
  simpl. eexists. split; [done|]. intros k Hk. simpl in *.
  apply elem_of_app. destruct (decide (k = path)) as [->|Hne].
  - right. by apply list_elem_of_singleton.
  - left. apply Hsup; [by apply Htr | done].
Qed.

Lemma put_tracked path surface c :
  tracked c → ∃ c', put path (Some surface) c = Ret c' ∧ tracked c'.
Proof.
  intros Htr.
  destruct (evict (_get_surface_size surface) (max_memory c) (access_order c)
              (cache c) (current_memory c)) as [[order entries] mem] eqn:Hev.
  rewrite (put_unfold _ _ _ _ _ _ Hev).
  destruct (evict_tracked _ _ _ _ _ _ _ _ Hev Htr) as [Htr' _].
  destruct (entries !! path) as [old|] eqn:Hlook.
  - destruct (deque_remove_elem path order) as (d & -> & Hsub & Hsup).
    { apply Htr'. by rewrite Hlook. }
    simpl. eexists. split; [done|]. intros k Hk. simpl in *.
    apply elem_of_app. destruct (decide (k = path)) as [->|Hne].
    + right. by apply list_elem_of_singleton.
    + left. rewrite lookup_insert_ne in Hk by done. apply Hsup; auto.
  - eexists. split; [done|]. intros k Hk. simpl in *.
    apply elem_of_app. destruct (decide (k = path)) as [->|Hne].
    + right. by apply list_elem_of_singleton.
    + left. rewrite lookup_insert_ne in Hk by done. auto.
Qed.

Lemma cache_clear_tracked c : tracked (cache_clear c).
Proof. intros k. simpl. rewrite lookup_empty. by intros [? ?]. Qed.

Lemma run_cons o ops c : run (o :: ops) c = c' ← run_op o c; run ops c'.
Proof. done. Qed.

Lemma run_tracked ops c :
  tracked c → ∃ c', run ops c = Ret c' ∧ tracked c'.
Proof.
  revert c. induction ops as [|o ops IH]; intros c Htr; [by exists c|].
  rewrite run_cons. destruct o as [path|path surface|]; unfold run_op.
  - destruct (get_tracked path c Htr) as (c' & -> & Htr'). simpl. by apply IH.
  - destruct (put_tracked path surface c Htr) as (c' & -> & Htr'). simpl. by apply IH.
  - simpl. apply IH, cache_clear_tracked.
Qed.

Lemma run_consistent ops c :
  Forall get_or_put ops → consistent c →
  ∃ c', run ops c = Ret c' ∧ consistent c' ∧ max_memory c' = max_memory c.
Proof.
  intros Hops. revert c.
  induction Hops as [|o ops Ho Hops IH]; intros c Hc; [by exists c|].
  rewrite run_cons. destruct o as [path|path surface|]; unfold run_op; [| |done].
  - destruct (get_consistent path c Hc) as (c' & -> & Hc' & _ & Hmax & _).
    simpl. rewrite <- Hmax. by apply IH.
  - destruct (put_consistent path surface c Hc) as (c' & -> & Hc' & Hmax & _).
    simpl. rewrite <- Hmax. by apply IH.
Qed.

Lemma within_get_or_put budget o : within budget o → get_or_put o.
Proof. by destruct o. Qed.

Lemma run_within budget ops c :
  Forall (within budget) ops → consistent c →
  max_memory c = budget → current_memory c ≤ budget →
  ∃ c', run ops c = Ret c' ∧ consistent c' ∧
        max_memory c' = budget ∧ current_memory c' ≤ budget.
Proof.
  intros Hops. revert c.
  induction Hops as [|o ops Ho Hops IH]; intros c Hc Hmax Hmem; [by exists c|].
  rewrite run_cons. destruct o as [path|path surface|]; unfold run_op; [| |done].
  - destruct (get_consistent path c Hc) as (c' & -> & Hc' & _ & Hmax' & Hmem' & _).
    simpl. apply IH; [done | congruence | lia].
  - destruct (put_consistent path surface c Hc)
      as (c' & -> & Hc' & Hmax' & _ & _ & Hfit).
    simpl. simpl in Ho. apply IH; [done | congruence |].
    subst budget. apply Hfit. lia.
Qed.
End tracked_cache.

(** ** The byte budget *)

Section budget.
Import ImageCache.

(** C1 (as amended): for every sequence of [Put] and [Get] operations on an
    empty cache of byte budget [budget >= 0] in which every image put has a
    footprint (width * height * 4) of at most [budget], every operation
    returns, and after each of them the footprints of the entries the cache
    holds sum to at most [budget]. *)
Theorem cache_within_budget (budget : Z) (ops : list op) (n : nat) :
  0 ≤ budget →
  Forall (within budget) ops →
  ∃ c, run (take n ops) (with_budget budget) = Ret c ∧
       footprint_sum (cache c) ≤ budget.
Proof.
  intros Hbudget Hops.
  destruct (run_within budget (take n ops) (with_budget budget))
    as (c & Hrun & (_ & _ & Hmem) & _ & Hle).
  - by apply Forall_take.
  - apply consistent_with_budget.
  - done.
  - simpl. lia.
  - exists c. split; [done|]. by rewrite <- Hmem.
Qed.

Lemma cache_within_budget_witness :
  0 ≤ 1000 ∧
  Forall (within 1000)
    [Put "a" (img400 1); Put "b" (img400 2); Get "a"; Put "c" (img400 3)] ∧
  ∃ c, run (take 4 [Put "a" (img400 1); Put "b" (img400 2); Get "a";
                    Put "c" (img400 3)]) (with_budget 1000) = Ret c ∧
       footprint_sum (cache c) ≤ 1000.
Proof.
  assert (H0 : 0 ≤ 1000) by lia.
  assert (Hops : Forall (within 1000)
    [Put "a" (img400 1); Put "b" (img400 2); Get "a"; Put "c" (img400 3)]).
  { repeat constructor; vm_compute; congruence. }
  split; [exact H0|]. split; [exact Hops|].
  exact (cache_within_budget 1000 _ 4 H0 Hops).
Defined.

(** C1 as stated fails: one [Put] of an image of 1600 bytes into an empty
    cache of budget 1000 returns with 1600 bytes held. *)
Lemma oversized_put_exceeds_budget :
  ∃ c, run [Put "k" img1600] (with_budget 1000) = Ret c ∧
       max_memory c = 1000 ∧
       footprint_sum (cache c) = 1600 ∧
       ¬ footprint_sum (cache c) ≤ max_memory c.
Proof.
  eexists. split; [vm_compute; reflexivity|].
  split; [done|]. split; [by vm_compute|]. by vm_compute.
Qed.
End budget.

(** ** Least-recently-used eviction *)

Section lru.
Import ImageCache.

(** C2: on a consistent cache (every cache that [Get] and [Put] build is
    one, see [run_consistent]), a [Get] hit moves the key to the
    most-recently-used end of the deque; a [Put] evicts the [n]
    least-recently-used keys, in deque order, where [n] is the least number
    after which the new surface fits or the deque is empty, and leaves its
    own key at the most-recently-used end; and with budget 1000 and three
    images of 400 bytes, [Put a], [Put b], [Get a], [Put c] evicts exactly
    [b] and leaves [a] and [c] cached with 800 bytes. *)
Theorem lru_eviction_order (c : t) (path : string) (surface : Surface) :
  consistent c →
  (∃ c', get path c = Ret (cache c !! path, c') ∧ cache c' = cache c ∧
         access_order c' =
           match cache c !! path with
           | Some _ => filter (λ y, y ≠ path) (access_order c) ++ [path]
           | None => access_order c
           end) ∧
  (∃ (n : nat) c',
     put path (Some surface) c = Ret c' ∧
     cache c' = <[path := surface]> (foldr delete (cache c) (take n (access_order c))) ∧
     access_order c' = filter (λ y, y ≠ path) (drop n (access_order c)) ++ [path] ∧
     (∀ m : nat, (m < n)%nat →
        current_memory c - footprints_of (cache c) (take m (access_order c))
        + _get_surface_size surface > max_memory c) ∧
     (n = length (access_order c) ∨
      current_memory c - footprints_of (cache c) (take n (access_order c))
      + _get_surface_size surface ≤ max_memory c)) ∧
  (∃ c', run [Put "a" (img400 1); Put "b" (img400 2); Get "a"; Put "c" (img400 3)]
           (with_budget 1000) = Ret c' ∧
         cache c' = {[ "a" := img400 1; "c" := img400 3 ]} ∧
         cache c' !! "b" = None ∧
         access_order c' = ["a"; "c"] ∧
         current_memory c' = 800 ∧
         footprint_sum (cache c') = 800).
Proof.
  intros Hc. split; [|split].
  - destruct (get_consistent path c Hc) as (c' & Hget & _ & Hcache & _ & _ & Horder).
    by exists c'.
  - destruct Hc as (Hnd & Hkeys & Hmem).
    destruct (evict_prefix (_get_surface_size surface) (max_memory c)
                (access_order c) (cache c) (current_memory c) Hnd)
      as (n & Hn & Hev & Hmin & Hstop).
    { intros k Hk. by apply Hkeys. }
    exists n. rewrite (put_unfold _ _ _ _ _ _ Hev).
    assert (Hnd' : NoDup (drop n (access_order c))).
    { eapply sublist_NoDup; [exact Hnd | apply sublist_drop]. }
    destruct (foldr delete (cache c) (take n (access_order c)) !! path)
      as [old|] eqn:Hlook.
    + assert (Hin : path ∈ drop n (access_order c)).
      { rewrite lookup_foldr_delete in Hlook.
        destruct (decide (path ∈ take n (access_order c))) as [|Hnin]; [done|].
        assert (Hp : path ∈ access_order c) by (apply Hkeys; by rewrite Hlook).
        rewrite <- (take_drop n (access_order c)) in Hp.
        apply elem_of_app in Hp as [Hp|Hp]; done. }
      rewrite deque_remove_filter by done. simpl.
      eexists. split; [done|]. by simpl.
    + assert (Hnin : path ∉ drop n (access_order c)).
      { intros Hin. rewrite lookup_foldr_delete in Hlook.
        destruct (decide (path ∈ take n (access_order c))) as [Hp|Hp].
        - rewrite <- (take_drop n (access_order c)) in Hnd.
          apply NoDup_app in Hnd as (_ & Hdisj & _). by apply (Hdisj path).
        - assert (Hs : is_Some (cache c !! path)).
          { apply Hkeys. by eapply subseteq_drop. }
          rewrite Hlook in Hs. by destruct Hs. }
      eexists. split; [done|]. simpl.
      rewrite filter_ne_id by done. done.
  - eexists. split; [vm_compute; reflexivity|].
    split; [by vm_compute|]. split; [by vm_compute|].
    split; [done|]. split; [done|]. by vm_compute.
Qed.

Lemma lru_eviction_order_witness :
  consistent (with_budget 1000) ∧
  ∃ c', run [Put "a" (img400 1); Put "b" (img400 2); Get "a"; Put "c" (img400 3)]
          (with_budget 1000) = Ret c' ∧
        cache c' = {[ "a" := img400 1; "c" := img400 3 ]} ∧
        cache c' !! "b" = None ∧
        access_order c' = ["a"; "c"] ∧
        current_memory c' = 800 ∧
        footprint_sum (cache c') = 800.
Proof.
  split; [apply consistent_with_budget|].
  exact (proj2 (proj2 (lru_eviction_order (with_budget 1000) "a" (img400 1)
                         (consistent_with_budget 1000)))).
Defined.
End lru.

(** ** An image larger than the budget *)

Section oversized.
Import ImageCache.

(** C3 (as amended): for every key and every image whose footprint alone
    exceeds the byte budget, [Put] on a consistent cache evicts every entry
    and then inserts the image: the cache holds that entry alone, above its
    budget, and a later [Get] of the key returns the image. *)
Theorem oversized_put_is_cached (c : t) (path : string) (surface : Surface) :
  consistent c →
  _get_surface_size surface > max_memory c →
  ∃ c', put path (Some surface) c = Ret c' ∧
        cache c' = {[ path := surface ]} ∧
        access_order c' = [path] ∧
        current_memory c' = _get_surface_size surface ∧
        max_memory c' = max_memory c ∧
        get path c' = Ret (Some surface, c').
Proof.
  intros (Hnd & Hkeys & Hmem) Hbig.
  destruct (evict (_get_surface_size surface) (max_memory c) (access_order c)
              (cache c) (current_memory c)) as [[order entries] mem] eqn:Hev.
  rewrite (put_unfold _ _ _ _ _ _ Hev).
  destruct (evict_consistent _ _ _ _ _ _ _ _ Hev Hnd Hkeys Hmem)
    as (Hnd' & Hkeys' & Hmem' & Hstop).
  pose proof (footprint_sum_nonneg entries) as Hpos.
  destruct Hstop as [Hstop| ->]; [lia|].
  assert (entries = ∅) as ->.
  { apply map_empty. intros k. apply eq_None_not_Some.
    intros Hk%Hkeys'. by apply elem_of_nil in Hk. }
  rewrite footprint_sum_empty in Hmem'. subst mem.
  rewrite lookup_empty. eexists. split; [done|]. simpl.
  rewrite insert_empty. repeat split.
  unfold get. simpl. rewrite lookup_singleton_eq. simpl.
  by rewrite decide_True.
Qed.

Lemma oversized_put_is_cached_witness :
  consistent (with_budget 1000) ∧
  _get_surface_size img1600 > max_memory (with_budget 1000) ∧
  ∃ c', put "k" (Some img1600) (with_budget 1000) = Ret c' ∧
        cache c' = {[ "k" := img1600 ]} ∧
        access_order c' = ["k"] ∧
        current_memory c' = _get_surface_size img1600 ∧
        max_memory c' = max_memory (with_budget 1000) ∧
        get "k" c' = Ret (Some img1600, c').
Proof.
  assert (Hbig : _get_surface_size img1600 > max_memory (with_budget 1000)).
  { vm_compute. reflexivity. }
  split; [apply consistent_with_budget|]. split; [exact Hbig|].
  exact (oversized_put_is_cached (with_budget 1000) "k" img1600
           (consistent_with_budget 1000) Hbig).
Defined.

(** C3 as stated fails: with budget 1000, the [Put] of an image of 1600
    bytes changes the cache, and the [Get] that follows finds the image. *)
Lemma oversized_put_not_rejected :
  _get_surface_size img1600 > max_memory (with_budget 1000) ∧
  ∃ c', put "k" (Some img1600) (with_budget 1000) = Ret c' ∧
        c' ≠ with_budget 1000 ∧
        cache c' !! "k" = Some img1600 ∧
        ∃ c'', get "k" c' = Ret (Some img1600, c'').
Proof.
  split; [by vm_compute|].
  eexists. split; [vm_compute; reflexivity|].
  split; [by vm_compute|]. split; [by vm_compute|].
  eexists. vm_compute. reflexivity.
Qed.
End oversized.

(** ** The keys of the dict and of the deque *)

Section keys.
Import ImageCache.

Lemma consistent_keys c :
  consistent c → dom (cache c) = list_to_set (access_order c).
Proof.
  intros (_ & Hkeys & _). apply set_eq. intros k.
  rewrite elem_of_dom, elem_of_list_to_set. by rewrite Hkeys.
Qed.

Lemma tracked_keys c :
  tracked c → dom (cache c) ⊆ list_to_set (access_order c).
Proof.
  intros Htr k. rewrite elem_of_dom, elem_of_list_to_set. apply Htr.
Qed.

(** Whatever [Get], [Put] and art-mode clears a cache goes through, no
    operation raises and the keys of the dict are keys of the deque; the
    two key sets are equal as long as there was no clear. *)
Lemma cache_keys_tracked (ops : list op) (max_memory_mb : Z) :
  ∃ c, run ops (init max_memory_mb) = Ret c ∧
       dom (cache c) ⊆ list_to_set (access_order c) ∧
       (Forall get_or_put ops →
        dom (cache c) = list_to_set (access_order c)).
Proof.
  destruct (run_tracked ops (init max_memory_mb)) as (c & Hrun & Htr).
  { apply consistent_tracked, consistent_init. }
  exists c. split; [done|]. split; [by apply tracked_keys|].
  intros Hops.
  destruct (run_consistent ops (init max_memory_mb) Hops (consistent_init _))
    as (c' & Hrun' & Hc' & _).
  rewrite Hrun in Hrun'. injection Hrun' as <-. by apply consistent_keys.
Qed.


(** C4: the key sets of the dict and of the deque differ after the clear
    of art mode.  [main] caches the image it displays, the user presses
    [a]: the dict is empty, the deque still lists the image and the byte
    counter still counts its 400 bytes. *)
Theorem art_toggle_desynchronises_keys :
  ∃ c s,
    put "a.png" (Some (img400 0)) (Viewer.cache (Viewer.init ["a.png"; "b.png"] 0))
    = Ret c ∧
    dom (cache c) = list_to_set (access_order c) ∧
    Viewer.handle_event (Viewer.KEYDOWN Viewer.K_a)
      (Viewer.set_cache c (Viewer.init ["a.png"; "b.png"] 0)) = Ret s ∧
    dom (cache (Viewer.cache s)) = ∅ ∧
    access_order (Viewer.cache s) = ["a.png"] ∧
    current_memory (Viewer.cache s) = 400 ∧
    dom (cache (Viewer.cache s)) ≠ list_to_set (access_order (Viewer.cache s)).
Proof.
  eexists. eexists. split; [vm_compute; reflexivity|].
  split; [by vm_compute|]. split; [vm_compute; reflexivity|].
  split; [by vm_compute|]. split; [done|]. split; [done|].
  by vm_compute.
Qed.
End keys.

(** ** The preloader *)

Section preloader.
Import ImagePreloader.
Implicit Types (self : t) (cache : ImageCache.t) (st : t * ImageCache.t).

Lemma tasks_for_snoc path p self queue :
  tasks_for path {| preload_queue := queue; executor := executor self ++ [p] |}
  = (tasks_for path self + if decide (p = path) then 1 else 0)%nat.
Proof.
  unfold tasks_for. simpl. rewrite filter_app, length_app.
  rewrite filter_cons, filter_nil. by destruct (decide (p = path)).
Qed.

Lemma tasks_for_remove_same path tasks :
  path ∈ tasks →
  S (length (filter (λ p, p = path) (remove_task path tasks)))
  = length (filter (λ p, p = path) tasks).
Proof.
  induction tasks as [|p tasks IH]; intros Hin.
  - by apply elem_of_nil in Hin.
  - simpl. destruct (decide (path = p)) as [->|Hne].
    + by rewrite filter_cons_True.
    + apply elem_of_cons in Hin as [->|Hin]; [done|].
      rewrite !filter_cons_False by congruence. by apply IH.
Qed.

Lemma tasks_for_remove_other path p tasks :
  p ≠ path →
  length (filter (λ q, q = p) (remove_task path tasks))
  = length (filter (λ q, q = p) tasks).
Proof.
  intros Hne. induction tasks as [|q tasks IH]; [done|].
  simpl. destruct (decide (path = q)) as [->|Hq].
  - by rewrite filter_cons_False by congruence.
  - rewrite !filter_cons. destruct (decide (q = p)); simpl; by rewrite IH.
Qed.

Lemma tasks_for_elem path self :
  path ∈ executor self ↔ (0 < tasks_for path self)%nat.
Proof.
  unfold tasks_for. induction (executor self) as [|p tasks IH].
  - simpl. split; [intros H; by apply elem_of_nil in H | lia].
  - rewrite filter_cons, elem_of_cons.
    destruct (decide (p = path)) as [->|Hne]; simpl.
    + split; [lia | auto].
    + rewrite <- IH. split; [intros [?|?]; [congruence | done] | auto].
Qed.

(** What one iteration of the loop of [preload_images] does. *)
Lemma preload_path_cases path self cache st' :
  preload_path path (self, cache) = Ret st' →
  (path ∈ preload_queue self ∧ st' = (self, cache)) ∨
  ((path ∉ preload_queue self) ∧
   ∃ cache', st'.2 = cache' ∧
     ((∃ surface, ImageCache.get path cache = Ret (Some surface, cache') ∧
                  st'.1 = self) ∨
      (ImageCache.get path cache = Ret (None, cache') ∧
       st'.1 = {| preload_queue := {[path]} ∪ preload_queue self;
                  executor := executor self ++ [path] |}))).
Proof.
  unfold preload_path.
  destruct (decide (path ∈ preload_queue self)) as [Hin|Hnin].
  - intros [= <-]. by left.
  - destruct (ImageCache.get path cache) as [[[surface|] cache']|e] eqn:Hget;
      simpl; [| |done].
    + intros [= <-]. right. split; [done|]. exists cache'. split; [done|].
      left. by exists surface.
    + intros [= <-]. right. split; [done|]. exists cache'. split; [done|].
      by right.
Qed.

Lemma preload_path_deduplicated path st st' :
  preload_path path st = Ret st' → deduplicated st.1 → deduplicated st'.1.
Proof.
  destruct st as [self cache]. intros Hstep Hinv.
  apply preload_path_cases in Hstep
    as [[_ ->]|(Hnin & cache' & _ & [(surface & _ & Hself)|[_ Hself]])];
    simpl in *; [done | by rewrite Hself |].
  rewrite Hself. intros p. rewrite tasks_for_snoc, Hinv. simpl.
  destruct (decide (p ∈ {[path]} ∪ preload_queue self)) as [Hq|Hq];
    rewrite elem_of_union, elem_of_singleton in Hq;
    destruct (decide (path = p)) as [->|Hne];
    destruct (decide (p ∈ preload_queue self)) as [Hp|Hp];
    try done; try lia; try (destruct Hq as [?|?]; congruence).
  all: exfalso; apply Hq; auto.
Qed.

Lemma task_done_deduplicated path self :
  path ∈ executor self → deduplicated self → deduplicated (task_done path self).
Proof.
  intros Hin Hinv p. unfold tasks_for, task_done. simpl.
  pose proof (Hinv p) as Hp. unfold tasks_for in Hp.
  destruct (decide (p ∈ preload_queue self ∖ {[path]})) as [Hq|Hq];
    rewrite elem_of_difference, elem_of_singleton in Hq;
    destruct (decide (p = path)) as [->|Hne].
  - by destruct Hq.
  - rewrite tasks_for_remove_other by done. rewrite Hp.
    destruct (decide (p ∈ preload_queue self)); [done | by destruct Hq].
  - pose proof (tasks_for_remove_same path (executor self) Hin) as Hrem.
    destruct (decide (path ∈ preload_queue self)); lia.
  - rewrite tasks_for_remove_other by done. rewrite Hp.
    destruct (decide (p ∈ preload_queue self)) as [Hp'|Hp']; [|done].
    exfalso. apply Hq. auto.
Qed.

Lemma deduplicated_init : deduplicated init.
Proof.
  intros p. unfold tasks_for. simpl.
  destruct (decide (p ∈ (∅ : gset string))) as [Hp|Hp]; [|done].
  by apply not_elem_of_empty in Hp.
Qed.

Lemma step_deduplicated st st' :
  step st st' → deduplicated st.1 → deduplicated st'.1.
Proof.
  intros [path st1 st2 Hstep|path self cache Hin|self cache cache']; simpl.
  - by eapply preload_path_deduplicated.
  - by apply task_done_deduplicated.
  - done.
Qed.

Lemma reachable_deduplicated st st' :
  rtc step st st' → deduplicated st.1 → deduplicated st'.1.
Proof. induction 1; eauto using step_deduplicated. Qed.

(** A task of the pool that runs to its end is a change of the cache
    followed by the end of a task. *)
Lemma preload_task_steps path surface st cache' :
  path ∈ executor st.1 →
  (_preload_task path surface st).2 = Ret cache' →
  rtc step st ((_preload_task path surface st).1, cache').
Proof.
  destruct st as [self cache]. simpl. intros Hin _.
  eapply rtc_l; [apply (step_cache self cache cache')|].
  apply rtc_once. by apply step_task_done.
Qed.

(** A call of [preload_images] runs the loop body on the neighbours. *)
Lemma preload_loop_paths images idxs st :
  (∀ idx, idx ∈ idxs → is_Some (images !! Z.to_nat idx)) →
  preload_loop images idxs st
  = preload_paths (omap (λ idx, images !! Z.to_nat idx) idxs) st.
Proof.
  revert st. induction idxs as [|idx idxs IH]; intros st Hin; [done|].
  destruct (Hin idx) as [path Hpath]; [apply elem_of_cons; auto|].
  simpl. unfold image_at. rewrite Hpath. simpl.
  destruct (preload_path path st) as [st'|e]; [|done]. simpl.
  apply IH. intros i Hi. apply Hin, elem_of_cons. auto.
Qed.

Lemma indices_in_range current_index len num_ahead num_behind idx :
  0 < len →
  idx ∈ indices current_index len num_ahead num_behind →
  0 ≤ idx < len.
Proof.
  intros Hlen. unfold indices. rewrite elem_of_app, !list_elem_of_fmap.
  intros [(i & -> & _)|(i & -> & _)]; by apply Z.mod_pos_bound.
Qed.

Lemma preload_images_paths images current_index num_ahead num_behind st :
  preload_images images current_index num_ahead num_behind st
  = preload_paths (neighbours images current_index num_ahead num_behind) st.
Proof.
  unfold preload_images, neighbours. destruct images as [|image images].
  - by induction (indices current_index (Z.of_nat (length [])) num_ahead num_behind).
  - apply preload_loop_paths. intros idx Hidx.
    apply indices_in_range in Hidx; [|simpl; lia].
    apply lookup_lt_is_Some. lia.
Qed.

Lemma preload_paths_steps paths st st' :
  preload_paths paths st = Ret st' → rtc step st st'.
Proof.
  revert st. induction paths as [|path paths IH]; intros st.
  - intros [= <-]. done.
  - simpl. destruct (preload_path path st) as [st1|e] eqn:Hstep; [|done].
    simpl. intros Hrest. eapply rtc_l; [by eapply step_iteration | by apply IH].
Qed.

Lemma get_Ret path cache r cache' :
  ImageCache.get path cache = Ret (r, cache') →
  r = ImageCache.cache cache !! path ∧
  ImageCache.cache cache' = ImageCache.cache cache.
Proof.
  unfold ImageCache.get.
  destruct (ImageCache.cache cache !! path) as [surface|].
  - destruct (ImageCache.deque_remove path (ImageCache.access_order cache));
      simpl; [|done]. by intros [= <- <-].
  - by intros [= <- <-].
Qed.

(** A path that is in flight stays in flight through an iteration, and
    the iteration submits nothing for it. *)
Lemma preload_path_in_flight p path st st' :
  preload_path path st = Ret st' →
  p ∈ preload_queue st.1 →
  p ∈ preload_queue st'.1 ∧ tasks_for p st'.1 = tasks_for p st.1.
Proof.
  destruct st as [self cache]. intros Hstep Hp.
  apply preload_path_cases in Hstep
    as [[_ ->]|(Hnin & cache' & _ & [(surface & _ & Hself)|[_ Hself]])];
    simpl in *; [done | by rewrite Hself |].
  rewrite Hself. simpl. split.
  - apply elem_of_union. auto.
  - rewrite tasks_for_snoc. destruct (decide (path = p)) as [->|Hne]; [done | lia].
Qed.

Lemma preload_paths_in_flight p paths st st' :
  preload_paths paths st = Ret st' →
  p ∈ preload_queue st.1 →
  p ∈ preload_queue st'.1 ∧ tasks_for p st'.1 = tasks_for p st.1.
Proof.
  revert st. induction paths as [|path paths IH]; intros st.
  - by intros [= <-].
  - simpl. destruct (preload_path path st) as [st1|e] eqn:Hstep; [|done].
    simpl. intros Hrest Hp.
    destruct (preload_path_in_flight p _ _ _ Hstep Hp) as [Hp1 <-].
    by apply IH.
Qed.

(** A path that is neither in flight nor cached gets one task from the
    first iteration that names it. *)
Lemma preload_paths_submits p paths st st' :
  preload_paths paths st = Ret st' →
  p ∈ paths →
  p ∉ preload_queue st.1 →
  ImageCache.cache st.2 !! p = None →
  p ∈ preload_queue st'.1 ∧ tasks_for p st'.1 = S (tasks_for p st.1).
Proof.
  revert st. induction paths as [|path paths IH]; intros st Hrun Hin Hq Hmiss.
  - by apply elem_of_nil in Hin.
  - simpl in Hrun. destruct (preload_path path st) as [st1|e] eqn:Hstep; [|done].
    simpl in Hrun. destruct st as [self cache].
    apply preload_path_cases in Hstep
      as [[Hpath ->]|(Hnin & cache' & Hc' & [(surface & Hget & Hself)|[Hget Hself]])];
      simpl in *.
    + apply (IH (self, cache)); try done.
      apply elem_of_cons in Hin as [->|Hin]; done.
    + apply get_Ret in Hget as [Hr Hdict].
      destruct st1 as [self1 cache1]. simpl in *. subst self1 cache1.
      apply (IH (self, cache')); [done | | done | by simpl; rewrite Hdict].
      apply elem_of_cons in Hin as [->|Hin]; [congruence | done].
    + apply get_Ret in Hget as [Hr Hdict].
      destruct st1 as [self1 cache1]. simpl in *. subst cache1.
      destruct (decide (path = p)) as [->|Hne].
      * destruct (preload_paths_in_flight p _ _ _ Hrun) as [Hp Htasks].
        { rewrite Hself. simpl. apply elem_of_union. left.
          by apply elem_of_singleton. }
        split; [done|]. simpl in Htasks.
        rewrite Htasks, Hself, tasks_for_snoc.
        rewrite decide_True by done. lia.
      * destruct (IH _ Hrun) as [Hp Htasks]; simpl.
        -- apply elem_of_cons in Hin as [->|Hin]; done.
        -- rewrite Hself. simpl. rewrite elem_of_union, elem_of_singleton.
           intros [?|?]; congruence.
        -- by rewrite Hdict.
        -- split; [done|]. simpl in Htasks.
           rewrite Htasks, Hself, tasks_for_snoc.
           rewrite decide_False by done. lia.
Qed.

(** On a cache whose dict keys are in its deque no iteration raises. *)
Lemma preload_paths_returns paths st :
  ImageCache.tracked st.2 →
  ∃ st', preload_paths paths st = Ret st' ∧ ImageCache.tracked st'.2.
Proof.
  revert st. induction paths as [|path paths IH]; intros [self cache] Htr.
  - by eexists.
  - simpl in *. unfold preload_path.
    destruct (decide (path ∈ preload_queue self)).
    + simpl. by apply IH.
    + destruct (get_tracked path cache Htr) as (cache' & -> & Htr'). simpl.
      destruct (ImageCache.cache cache !! path); simpl; by apply IH.
Qed.
(** An iteration on a consistent cache: it returns, the dict is as it was,
    and the deque changes only by a hit of [get]. *)
Lemma preload_path_consistent q self cache :
  ImageCache.consistent cache →
  ∃ self' cache',
    preload_path q (self, cache) = Ret (self', cache') ∧
    ImageCache.consistent cache' ∧
    ImageCache.cache cache' = ImageCache.cache cache ∧
    (q ∈ preload_queue self →
     self' = self ∧ cache' = cache) ∧
    (q ∉ preload_queue self → is_Some (ImageCache.cache cache !! q) →
     self' = self ∧
     ImageCache.access_order cache'
     = filter (λ y, y ≠ q) (ImageCache.access_order cache) ++ [q]) ∧
    (q ∉ preload_queue self → ImageCache.cache cache !! q = None →
     self' = {| preload_queue := {[q]} ∪ preload_queue self;
                executor := executor self ++ [q] |} ∧
     cache' = cache).
Proof.
  intros Hc. unfold preload_path.
  destruct (decide (q ∈ preload_queue self)) as [Hq|Hq].
  - exists self, cache. split; [done|]. split; [done|]. split; [done|].
    split; [done|]. split; intros Hn; by destruct (Hn Hq).
  - destruct (ImageCache.cache cache !! q) as [surface|] eqn:Hlook.
    + destruct (get_consistent q cache Hc)
        as (cache' & -> & Hc' & Hdict & _ & _ & Horder).
      rewrite Hlook in Horder |- *. simpl.
      exists self, cache'. split; [done|]. split; [done|]. split; [done|].
      split; [done|]. split; [done|]. by intros _ [=].
    + unfold ImageCache.get. rewrite Hlook. simpl.
      eexists _, cache. split; [done|]. split; [done|]. split; [done|].
      split; [done|]. split; [|done]. intros _ [? [=]].
Qed.

Lemma moved_behind_neighbours (p q : string) (l1 l2 : list string) (A : list string) :
  q ∈ A → (∀ k, k ∈ l2 → k ∈ A) →
  ∃ l1' l2', filter (λ y, y ≠ q) (l1 ++ p :: l2) ++ [q] = l1' ++ p :: l2' ∧
             ∀ k, k ∈ l2' → k ∈ A.
Proof.
  intros Hq Hl2. rewrite filter_app, filter_cons.
  destruct (decide (p ≠ q)) as [Hne|Heq].
  - exists (filter (λ y, y ≠ q) l1), (filter (λ y, y ≠ q) l2 ++ [q]).
    split; [by rewrite <- !app_assoc|].
    intros k. rewrite elem_of_app, list_elem_of_filter, list_elem_of_singleton.
    intros [[_ Hk]| ->]; auto.
  - assert (p = q) as -> by (destruct (decide (p = q)); [done | by destruct Heq]).
    exists (filter (λ y, y ≠ q) l1 ++ filter (λ y, y ≠ q) l2), [].
    split; [done|]. intros k Hk. by apply elem_of_nil in Hk.
Qed.

(** A cached path that is not in flight: the call submits nothing for it,
    and leaves it in the deque behind all keys but neighbours. *)
Lemma preload_paths_cached p surface (A : list string) paths self cache :
  ImageCache.consistent cache →
  p ∉ preload_queue self →
  ImageCache.cache cache !! p = Some surface →
  (∀ q, q ∈ paths → q ∈ A) →
  (p ∈ paths ∨
   ∃ l1 l2, ImageCache.access_order cache = l1 ++ p :: l2 ∧ ∀ k, k ∈ l2 → k ∈ A) →
  ∃ self' cache',
    preload_paths paths (self, cache) = Ret (self', cache') ∧
    ImageCache.consistent cache' ∧
    ImageCache.cache cache' = ImageCache.cache cache ∧
    (p ∉ preload_queue self') ∧
    tasks_for p self' = tasks_for p self ∧
    ∃ l1 l2, ImageCache.access_order cache' = l1 ++ p :: l2 ∧
             ∀ k, k ∈ l2 → k ∈ A.
Proof.
  revert self cache.
  induction paths as [|q paths IH]; intros self cache Hc Hp Hlook HA Hshape.
  - destruct Hshape as [Hin|Hshape]; [by apply elem_of_nil in Hin|].
    exists self, cache. split; [done|]. split; [done|]. split; [done|].
    split; [done|]. split; [done|]. exact Hshape.
  - change (preload_paths (q :: paths) (self, cache))
      with (st1 ← preload_path q (self, cache); preload_paths paths st1).
    destruct (preload_path_consistent q self cache Hc)
      as (self1 & cache1 & -> & Hc1 & Hdict & Hskip & Hhit & Hmiss).
    simpl.
    assert (HqA : q ∈ A) by (apply HA, elem_of_cons; auto).
    assert (Hp1 : (p ∉ preload_queue self1) ∧ tasks_for p self1 = tasks_for p self).
    { destruct (decide (q ∈ preload_queue self)) as [Hq|Hq].
      - by destruct (Hskip Hq) as [-> _].
      - destruct (ImageCache.cache cache !! q) as [sq|] eqn:Hlq.
        + by destruct (Hhit Hq ltac:(done)) as [-> _].
        + destruct (Hmiss Hq eq_refl) as [-> _]. simpl.
          assert (q ≠ p) by congruence. split.
          * rewrite elem_of_union, elem_of_singleton. intros [?|?]; congruence.
          * rewrite tasks_for_snoc. rewrite decide_False by done. lia. }
    destruct Hp1 as [Hp1 Htasks1].
    destruct (IH self1 cache1) as (self' & cache' & Hrun & Hc' & Hdict' & Hp' & Htasks' & Hfinal);
      [done | done | by rewrite Hdict | | |].
    { intros k Hk. apply HA, elem_of_cons. auto. }
    { destruct (decide (q ∈ preload_queue self)) as [Hq|Hq].
      - destruct (Hskip Hq) as [_ ->].
        destruct Hshape as [Hin|Hshape]; [|by right].
        apply elem_of_cons in Hin as [Heq|Hin]; [|by left].
        subst q. by destruct Hp.
      - destruct (ImageCache.cache cache !! q) as [sq|] eqn:Hlq.
        + destruct (Hhit Hq ltac:(done)) as [_ Horder].
          destruct (decide (q = p)) as [->|Hne].
          * right. rewrite Horder.
            exists (filter (λ y, y ≠ p) (ImageCache.access_order cache)), [].
            split; [done|]. intros k Hk. by apply elem_of_nil in Hk.
          * destruct Hshape as [Hin|(l1 & l2 & Hl & Hl2)].
            -- left. apply elem_of_cons in Hin as [Heq|Hin]; [congruence | done].
            -- right. rewrite Horder, Hl. by apply moved_behind_neighbours.
        + destruct (Hmiss Hq eq_refl) as [_ ->].
          destruct Hshape as [Hin|Hshape]; [|by right].
          apply elem_of_cons in Hin as [Heq|Hin]; [congruence | by left]. }
    exists self', cache'. split; [done|]. split; [done|].
    split; [congruence|]. split; [done|]. split; [congruence | done].
Qed.
(** A call adds its tasks at the end of the pool, none for a path that
    was in flight. *)
Lemma preload_paths_appends paths st st' :
  preload_paths paths st = Ret st' →
  ∃ new, executor st'.1 = executor st.1 ++ new ∧
         ∀ p, p ∈ preload_queue st.1 → p ∉ new.
Proof.
  revert st. induction paths as [|path paths IH]; intros st.
  - intros [= <-]. exists []. split; [by rewrite app_nil_r|].
    intros p _ Hp. by apply elem_of_nil in Hp.
  - simpl. destruct (preload_path path st) as [st1|e] eqn:Hstep; [|done].
    simpl. intros Hrun. destruct (IH _ Hrun) as (new & Hnew & Hfresh).
    destruct st as [self cache].
    apply preload_path_cases in Hstep
      as [[_ ->]|(Hnin & cache' & _ & [(surface & _ & Hself)|[_ Hself]])];
      simpl in *.
    + by exists new.
    + rewrite Hself in *. by exists new.
    + rewrite Hself in *. simpl in *. exists (path :: new).
      split; [by rewrite Hnew, <- app_assoc|].
      intros p Hp. apply not_elem_of_cons. split; [congruence|].
      apply Hfresh, elem_of_union. auto.
Qed.
End preloader.

(** ** One decode task per key *)

Section deduplication.
Import ImagePreloader.

(** C5: in every state the thread that schedules and the workers of the
    pool can reach, a path has at most one task in the pool.  For a path
    that is in flight, a call of [preload_images] returns (on a cache whose
    dict keys are in its deque), submits no task for it and leaves it in
    flight.  And a call that names a path neither in flight nor cached
    submits exactly one task for it, however often its indices name the
    path; a second call, made in any later state in which the path is still
    in flight, leaves that one task alone. *)
Theorem one_task_per_key (cache0 : ImageCache.t) (st : t * ImageCache.t)
    (path : string) :
  rtc step (init, cache0) st →
  (tasks_for path st.1 ≤ 1)%nat ∧
  (path ∈ preload_queue st.1 →
   tasks_for path st.1 = 1%nat ∧
   ∀ images current_index num_ahead num_behind,
     (ImageCache.tracked st.2 →
      ∃ st', preload_images images current_index num_ahead num_behind st = Ret st') ∧
     (∀ st', preload_images images current_index num_ahead num_behind st = Ret st' →
             path ∈ preload_queue st'.1 ∧
             (∃ new, executor st'.1 = executor st.1 ++ new ∧ path ∉ new) ∧
             tasks_for path st'.1 = 1%nat)) ∧
  (path ∉ preload_queue st.1 →
   ImageCache.cache st.2 !! path = None →
   ∀ images current_index num_ahead num_behind st1,
     path ∈ neighbours images current_index num_ahead num_behind →
     preload_images images current_index num_ahead num_behind st = Ret st1 →
     path ∈ preload_queue st1.1 ∧
     tasks_for path st1.1 = 1%nat ∧
     ∀ st2 images' current_index' num_ahead' num_behind' st3,
       rtc step st1 st2 →
       path ∈ preload_queue st2.1 →
       preload_images images' current_index' num_ahead' num_behind' st2 = Ret st3 →
       tasks_for path st2.1 = 1%nat ∧ tasks_for path st3.1 = 1%nat).
Proof.
  intros Hreach.
  pose proof (reachable_deduplicated _ _ Hreach deduplicated_init) as Hinv.
  simpl in Hinv. split; [|split].
  - rewrite Hinv. destruct (decide (path ∈ preload_queue st.1)); lia.
  - intros Hp. split; [by rewrite Hinv, decide_True|].
    intros images current_index num_ahead num_behind. split.
    + intros Htr. rewrite preload_images_paths.
      destruct (preload_paths_returns
                  (neighbours images current_index num_ahead num_behind) st Htr)
        as (st' & Hrun & _).
      by exists st'.
    + intros st' Hrun. rewrite preload_images_paths in Hrun.
      destruct (preload_paths_in_flight path _ _ _ Hrun Hp) as [Hp' Htasks].
      destruct (preload_paths_appends _ _ _ Hrun) as (new & Hnew & Hfresh).
      split; [done|]. split; [exists new; auto|].
      by rewrite Htasks, Hinv, decide_True.
  - intros Hq Hmiss images current_index num_ahead num_behind st1 Hin Hrun.
    rewrite preload_images_paths in Hrun.
    destruct (preload_paths_submits path _ _ _ Hrun Hin Hq Hmiss) as [Hp1 Htasks1].
    rewrite Hinv, decide_False in Htasks1 by done.
    split; [done|]. split; [done|].
    intros st2 images' current_index' num_ahead' num_behind' st3 Hsteps Hp2 Hrun3.
    assert (Hinv2 : deduplicated st2.1).
    { apply (reachable_deduplicated (init, cache0)); [|exact deduplicated_init].
      etrans; [exact Hreach|]. etrans; [|exact Hsteps].
      by apply preload_paths_steps in Hrun. }
    rewrite preload_images_paths in Hrun3.
    destruct (preload_paths_in_flight path _ _ _ Hrun3 Hp2) as [_ Htasks3].
    rewrite Htasks3, Hinv2. by rewrite decide_True.
Qed.

Lemma one_task_per_key_witness :
  ∃ st1,
    preload_images ["a"; "k"; "b"] 0 2 1 (init, ImageCache.init 500) = Ret st1 ∧
    executor st1.1 = ["k"; "b"] ∧
    rtc step (init, ImageCache.init 500) st1 ∧
    (tasks_for "k" st1.1 ≤ 1)%nat ∧
    preload_images ["a"; "k"; "b"] 0 2 1 st1 = Ret st1.
Proof.
  eexists. split; [vm_compute; reflexivity|].
  split; [done|].
  assert (Hsteps : rtc step (init, ImageCache.init 500)
            ({| preload_queue := {["k"; "b"]}; executor := ["k"; "b"] |},
             ImageCache.init 500)).
  { apply (preload_paths_steps ["k"; "b"; "b"]). by vm_compute. }
  split; [exact Hsteps|].
  split; [exact (proj1 (one_task_per_key _ _ "k" Hsteps))|].
  by vm_compute.
Defined.
End deduplication.

(** ** Preloading touches the cache *)

Section preload_touch.
Import ImagePreloader.

(** C10: for a path that is cached and not in flight, the iteration of
    [preload_images] on it calls [cache.get], which moves the path to the
    most-recently-used end of the deque, and submits nothing.  A whole call
    whose neighbours include the path returns with the dict as it was, no
    task for the path in the pool and the path not in flight; in the deque
    only neighbours, touched later in the call, come after the path. *)
Theorem preload_touches_cached (self : t) (cache : ImageCache.t)
    (path : string) (surface : ImageCache.Surface)
    (images : list string) (current_index num_ahead num_behind : Z) :
  ImageCache.consistent cache →
  path ∉ preload_queue self →
  ImageCache.cache cache !! path = Some surface →
  (∃ cache',
     preload_path path (self, cache) = Ret (self, cache') ∧
     ImageCache.cache cache' = ImageCache.cache cache ∧
     ImageCache.access_order cache'
     = filter (λ y, y ≠ path) (ImageCache.access_order cache) ++ [path] ∧
     last (ImageCache.access_order cache') = Some path) ∧
  (path ∈ neighbours images current_index num_ahead num_behind →
   ∃ self' cache',
     preload_images images current_index num_ahead num_behind (self, cache)
     = Ret (self', cache') ∧
     ImageCache.cache cache' = ImageCache.cache cache ∧
     (∃ new, executor self' = executor self ++ new ∧ path ∉ new) ∧
     (path ∉ preload_queue self') ∧
     ∃ l1 l2,
       ImageCache.access_order cache' = l1 ++ path :: l2 ∧
       ∀ k, k ∈ l2 → k ∈ neighbours images current_index num_ahead num_behind).
Proof.
  intros Hc Hq Hlook. split.
  - destruct (preload_path_consistent path self cache Hc)
      as (self' & cache' & Hstep & _ & Hdict & _ & Hhit & _).
    destruct (Hhit Hq) as [-> Horder]; [by rewrite Hlook|].
    exists cache'. split; [done|]. split; [done|]. split; [done|].
    rewrite Horder. apply last_snoc.
  - intros Hin. rewrite preload_images_paths.
    destruct (preload_paths_cached path surface
                (neighbours images current_index num_ahead num_behind)
                (neighbours images current_index num_ahead num_behind)
                self cache Hc Hq Hlook)
      as (self' & cache' & Hrun & _ & Hdict & Hq' & Htasks & Hshape);
      [done | by left |].
    exists self', cache'. split; [done|]. split; [done|].
    split; [|by split].
    destruct (preload_paths_appends _ _ _ Hrun) as (new & Hnew & _).
    simpl in Hnew. exists new. split; [done|].
    unfold tasks_for in Htasks. rewrite Hnew, filter_app, length_app in Htasks.
    intros Hp.
    assert (Hf : path ∈ filter (λ p, p = path) new)
      by (by apply list_elem_of_filter).
    destruct (filter (λ p, p = path) new); [by apply elem_of_nil in Hf|].
    simpl in Htasks. lia.
Qed.

Lemma preload_touches_cached_witness :
  ∃ cache,
    ImageCache.run [ImageCache.Put "k" (ImageCache.img400 0);
                    ImageCache.Put "z" (ImageCache.img400 1)]
      (ImageCache.init 500) = Ret cache ∧
    ImageCache.access_order cache = ["k"; "z"] ∧
    ImageCache.consistent cache ∧
    ("k" ∉ preload_queue init) ∧
    ImageCache.cache cache !! "k" = Some (ImageCache.img400 0) ∧
    ∃ cache',
      preload_path "k" (init, cache) = Ret (init, cache') ∧
      ImageCache.cache cache' = ImageCache.cache cache ∧
      ImageCache.access_order cache'
      = filter (λ y, y ≠ "k") (ImageCache.access_order cache) ++ ["k"] ∧
      last (ImageCache.access_order cache') = Some "k".
Proof.
  destruct (run_consistent
              [ImageCache.Put "k" (ImageCache.img400 0);
               ImageCache.Put "z" (ImageCache.img400 1)]
              (ImageCache.init 500)) as (cache & Hrun & Hc & _).
  { by repeat constructor. }
  { apply consistent_init. }
  assert (Heq : Ret cache
                = ImageCache.run [ImageCache.Put "k" (ImageCache.img400 0);
                                  ImageCache.Put "z" (ImageCache.img400 1)]
                    (ImageCache.init 500)) by done.
  vm_compute in Heq. injection Heq as ->.
  assert (Hq : "k" ∉ preload_queue init) by apply not_elem_of_empty.
  assert (Hlook : ImageCache.cache
            {| ImageCache.cache :=
                 {[ "k" := ImageCache.img400 0; "z" := ImageCache.img400 1 ]};
               ImageCache.access_order := ["k"; "z"];
               ImageCache.max_memory := 524288000;
               ImageCache.current_memory := 800 |} !! "k"
          = Some (ImageCache.img400 0)) by (by vm_compute).
  eexists. split; [exact Hrun|]. split; [done|].
  split; [exact Hc|]. split; [exact Hq|]. split; [exact Hlook|].
  exact (proj1 (preload_touches_cached init _ "k" (ImageCache.img400 0)
                  ["a"; "k"; "b"] 0 2 1 Hc Hq Hlook)).
Defined.
End preload_touch.

(** ** Float literals *)

(** The four literals are the correctly rounded values of 1, 4, 1/10 and
    11/10, and one wheel step up from 1.0 gives the literal 1.1. *)
Lemma float_literals :
  Float64.lit_1_0 = Float64.of_Z 1 ∧
  Float64.lit_4_0 = Float64.of_Z 4 ∧
  Float64.lit_0_1 = Float64.div (Float64.of_Z 1) (Float64.of_Z 10) ∧
  Float64.lit_1_1 = Float64.div (Float64.of_Z 11) (Float64.of_Z 10) ∧
  Float64.mul Float64.lit_1_0 Float64.lit_1_1 = Float64.lit_1_1.
Proof. by vm_compute. Qed.

(** ** The viewport *)

Section viewport.
Import Viewer.

Lemma sample_reached now :
  handle_events [MOUSEBUTTONDOWN 4; MOUSEMOTION true 5 (-7)]
    (init ["a.png"; "b.png"; "c.png"] now) = Ret (sample now).
Proof. done. Qed.

(** C6 (as amended): the slideshow check of a frame does not look at
    [mosaic_mode].  It leaves [current_index] unchanged when the slideshow
    is off or no more than [slideshow_delay] has passed since
    [last_slide_time]; otherwise it sets [current_index] to
    [(current_index + 1) % len(images)], in mosaic mode as in single-image
    mode. *)
Theorem slideshow_ignores_mosaic (s : state) (current_time : Z) :
  images s ≠ [] →
  ∃ s', slideshow_step current_time s = Ret s' ∧
        mosaic_mode s' = mosaic_mode s ∧
        current_index s' =
          (if decide (slideshow_active s = true ∧
                      current_time - last_slide_time s > slideshow_delay s)
           then (current_index s + 1) `mod` Z.of_nat (length (images s))
           else current_index s) ∧
        slideshow_step current_time (set_mosaic_mode (negb (mosaic_mode s)) s)
        = Ret (set_mosaic_mode (negb (mosaic_mode s)) s').
Proof.
  intros Himages. unfold slideshow_step. simpl.
  destruct (slideshow_active s) eqn:Hactive.
  - destruct (decide (current_time - last_slide_time s > slideshow_delay s))
      as [Hlate|Hearly].
    + unfold py_mod.
      destruct (decide (Z.of_nat (length (images s)) = 0)) as [Hlen|Hlen].
      { destruct (images s); [done | simpl in Hlen; lia]. }
      simpl. eexists. split; [done|]. simpl. split; [done|].
      split; [|done]. by rewrite decide_True.
    + exists s. split; [done|]. split; [done|]. split; [|done].
      rewrite decide_False; [done|]. by intros [_ ?].
  - exists s. split; [done|]. split; [done|]. split; [|done].
    rewrite decide_False; [done|]. by intros [? _].
Qed.

Lemma slideshow_ignores_mosaic_witness :
  images (set_slideshow_active true (set_mosaic_mode true (sample 0))) ≠ [] ∧
  ∃ s', slideshow_step 5000
          (set_slideshow_active true (set_mosaic_mode true (sample 0))) = Ret s' ∧
        mosaic_mode s' = true ∧
        current_index s' = 1.
Proof.
  assert (H : images (set_slideshow_active true (set_mosaic_mode true (sample 0)))
              ≠ []) by done.
  split; [exact H|].
  destruct (slideshow_ignores_mosaic _ 5000 H) as (s' & Hstep & Hmosaic & Hidx & _).
  exists s'. split; [exact Hstep|]. split; [exact Hmosaic|]. exact Hidx.
Defined.

(** C6 as stated fails: the user presses [m] and [space]; the frame at
    5000 ms, with mosaic mode on, moves from image 0 to image 1. *)
Lemma slideshow_advances_in_mosaic :
  ∃ s1 s2,
    frame_tail 100 [KEYDOWN K_m; KEYDOWN K_SPACE]
      (init ["a.png"; "b.png"; "c.png"] 0) = Ret s1 ∧
    mosaic_mode s1 = true ∧ slideshow_active s1 = true ∧
    current_index s1 = 0 ∧
    slideshow_step 5000 s1 = Ret s2 ∧
    mosaic_mode s2 = true ∧
    current_index s2 = 1 ∧
    current_index s2 ≠ current_index s1.
Proof.
  eexists. eexists. split; [vm_compute; reflexivity|].
  split; [done|]. split; [done|]. split; [done|].
  split; [vm_compute; reflexivity|]. by repeat split.
Qed.

(** C7 (as amended): the [space] key flips [slideshow_active] and nothing
    else.  When it activates the slideshow, [last_slide_time] stays the
    time of the last automatic advance (or of the start of the loop): the
    next frame advances exactly when its time exceeds
    [last_slide_time + slideshow_delay], however short the time since the
    activation. *)
Theorem toggle_slideshow_keeps_timer (s : state) (now next : Z) :
  slideshow_active s = false →
  images s ≠ [] →
  handle_event (KEYDOWN K_SPACE) s = Ret (set_slideshow_active true s) ∧
  frame_tail now [KEYDOWN K_SPACE] s = Ret (set_slideshow_active true s) ∧
  last_slide_time (set_slideshow_active true s) = last_slide_time s ∧
  ∃ s', frame_tail next [] (set_slideshow_active true s) = Ret s' ∧
        current_index s' =
          if decide (next - last_slide_time s > slideshow_delay s)
          then (current_index s + 1) `mod` Z.of_nat (length (images s))
          else current_index s.
Proof.
  intros Hoff Himages.
  assert (Hkey : handle_event (KEYDOWN K_SPACE) s
                 = Ret (set_slideshow_active true s)).
  { simpl. by rewrite Hoff. }
  split; [exact Hkey|]. split; [|split; [done|]].
  - unfold frame_tail, slideshow_step. rewrite Hoff. simpl. by rewrite Hoff.
  - unfold frame_tail, slideshow_step. simpl.
    destruct (decide (next - last_slide_time s > slideshow_delay s)); [|by eexists].
    unfold py_mod.
    destruct (decide (Z.of_nat (length (images s)) = 0)) as [Hlen|Hlen].
    { destruct (images s); [done | simpl in Hlen; lia]. }
    simpl. by eexists.
Qed.

Lemma toggle_slideshow_keeps_timer_witness :
  slideshow_active (init ["a.png"; "b.png"; "c.png"] 0) = false ∧
  images (init ["a.png"; "b.png"; "c.png"] 0) ≠ [] ∧
  ∃ s', frame_tail 10016 []
          (set_slideshow_active true (init ["a.png"; "b.png"; "c.png"] 0))
        = Ret s' ∧
        current_index s' = 1.
Proof.
  assert (H : images (init ["a.png"; "b.png"; "c.png"] 0) ≠ []) by done.
  split; [reflexivity|]. split; [exact H|].
  exact (proj2 (proj2 (proj2
    (toggle_slideshow_keeps_timer (init ["a.png"; "b.png"; "c.png"] 0)
       10000 10016 eq_refl H)))).
Defined.

(** C7 as stated fails: the loop starts at 0 ms, the user presses [space]
    in the frame of 10000 ms; the key does not set the timer to 10000, and
    the frame of 10016 ms already moves to the next image, 16 ms and not
    3000 ms after the activation. *)
Lemma slideshow_advances_right_after_activation :
  ∃ s1 s2,
    frame_tail 10000 [KEYDOWN K_SPACE] (init ["a.png"; "b.png"; "c.png"] 0)
    = Ret s1 ∧
    slideshow_active s1 = true ∧
    last_slide_time s1 = 0 ∧
    last_slide_time s1 + slideshow_delay s1 ≠ 10000 + slideshow_delay s1 ∧
    current_index s1 = 0 ∧
    frame_tail 10016 [] s1 = Ret s2 ∧
    current_index s2 = 1 ∧
    10016 < 10000 + slideshow_delay s1.
Proof.
  eexists. eexists. split; [vm_compute; reflexivity|].
  split; [done|]. split; [done|]. split; [done|]. split; [done|].
  split; [vm_compute; reflexivity|]. by split.
Qed.

(** C8 (as amended): the [m] key flips [mosaic_mode] and nothing else;
    [zoom], [pan_x] and [pan_y] are what they were, on entry into mosaic
    mode as on exit. *)
Theorem toggle_mosaic_keeps_view (s : state) :
  handle_event (KEYDOWN K_m) s = Ret (set_mosaic_mode (negb (mosaic_mode s)) s) ∧
  mosaic_mode (set_mosaic_mode (negb (mosaic_mode s)) s) = negb (mosaic_mode s) ∧
  zoom (set_mosaic_mode (negb (mosaic_mode s)) s) = zoom s ∧
  pan_x (set_mosaic_mode (negb (mosaic_mode s)) s) = pan_x s ∧
  pan_y (set_mosaic_mode (negb (mosaic_mode s)) s) = pan_y s.
Proof. done. Qed.

(** C8 as stated fails: after one wheel step and a drag, zoom is 1.1 and
    the pan is (5, -7); the [m] key enters mosaic mode and leaves them so. *)
Lemma mosaic_entry_keeps_zoom_and_pan :
  ∃ s,
    handle_events [MOUSEBUTTONDOWN 4; MOUSEMOTION true 5 (-7); KEYDOWN K_m]
      (init ["a.png"; "b.png"; "c.png"] 0) = Ret s ∧
    mosaic_mode (init ["a.png"; "b.png"; "c.png"] 0) = false ∧
    mosaic_mode s = true ∧
    zoom s = Float64.lit_1_1 ∧
    zoom s ≠ Float64.lit_1_0 ∧
    (pan_x s, pan_y s) = (5, -7) ∧
    (pan_x s, pan_y s) ≠ (0, 0).
Proof.
  eexists. split; [vm_compute; reflexivity|].
  split; [done|]. split; [done|]. split; [done|]. by repeat split.
Qed.
End viewport.

(** ** The zoom *)

Section zoom.
Import Viewer.

Lemma wheel_event (z : zoom_event) (s : state) :
  handle_event (zoom_button z) s = Ret (set_zoom (wheel z (zoom s)) s).
Proof. by destruct z. Qed.

(** The 362 values of [zoom_values] are closed under both wheel steps and
    lie between 0.1 and 4.0. *)
Lemma zoom_values_closed :
  Forall (λ x, (∀ z, wheel z x ∈ zoom_values) ∧ zoom_in_range x = true)
         zoom_values.
Proof.
  assert (H : Forall (λ x, wheel wheel_up x ∈ zoom_values ∧
                            wheel wheel_down x ∈ zoom_values ∧
                            zoom_in_range x = true) zoom_values).
  { apply (bool_decide_unpack _). by vm_compute. }
  eapply Forall_impl; [exact H|]. simpl.
  intros x (Hup & Hdown & Hrange). split; [|done]. by intros [].
Qed.

Lemma zoom_values_start : Float64.lit_1_0 ∈ zoom_values.
Proof. apply (bool_decide_unpack _). by vm_compute. Qed.

Lemma wheel_events_closed (zs : list zoom_event) (s : state) :
  zoom s ∈ zoom_values →
  ∃ s', handle_events (zoom_button <$> zs) s = Ret s' ∧ zoom s' ∈ zoom_values.
Proof.
  revert s. induction zs as [|z zs IH]; intros s Hs; [by exists s|].
  change (handle_events (zoom_button <$> z :: zs) s)
    with (s' ← handle_event (zoom_button z) s;
          handle_events (zoom_button <$> zs) s').
  rewrite wheel_event. simpl. apply IH. simpl.
  pose proof zoom_values_closed as Hclosed.
  rewrite Forall_forall in Hclosed. by apply Hclosed.
Qed.

(** C9: from a zoom of 1.0, after every sequence of wheel-up and wheel-down
    events the handler returns and the zoom, a binary64 float, is at least
    the float 0.1 and at most 4.0; as a rational it lies in [1/10, 4]. *)
Theorem zoom_stays_in_range (s : state) (zs : list zoom_event) :
  zoom s = Float64.lit_1_0 →
  ∃ s', handle_events (zoom_button <$> zs) s = Ret s' ∧
        Float64.leb Float64.lit_0_1 (zoom s') = true ∧
        Float64.leb (zoom s') Float64.lit_4_0 = true ∧
        (1 # 10 <= Float64.to_Q (zoom s') <= 4)%Q.
Proof.
  intros Hstart.
  destruct (wheel_events_closed zs s) as (s' & Hrun & Hin).
  { rewrite Hstart. apply zoom_values_start. }
  exists s'. split; [done|].
  pose proof zoom_values_closed as Hclosed.
  rewrite Forall_forall in Hclosed. destruct (Hclosed _ Hin) as [_ Hrange].
  unfold zoom_in_range in Hrange.
  apply andb_prop in Hrange as [Hrange Hq4].
  apply andb_prop in Hrange as [Hrange Hq01].
  apply andb_prop in Hrange as [Hf01 Hf4].
  split; [done|]. split; [done|].
  split; by apply Qle_bool_iff.
Qed.

Lemma zoom_stays_in_range_witness :
  zoom (init ["a.png"] 0) = Float64.lit_1_0 ∧
  ∃ s', handle_events (zoom_button <$> [wheel_up; wheel_up; wheel_down])
          (init ["a.png"] 0) = Ret s' ∧
        Float64.leb Float64.lit_0_1 (zoom s') = true ∧
        Float64.leb (zoom s') Float64.lit_4_0 = true ∧
        (1 # 10 <= Float64.to_Q (zoom s') <= 4)%Q.
Proof.
  split; [reflexivity|].
  exact (zoom_stays_in_range (init ["a.png"] 0) [wheel_up; wheel_up; wheel_down]
           eq_refl).
Defined.
End zoom.

(** * Further properties of the cache *)

Section cache_any_state.
Import ImageCache.
Implicit Types (c : t) (surface : Surface) (path : string)
  (entries : gmap string Surface).

Lemma footprint_sum_insert_over entries k surface :
  footprint_sum (<[k := surface]> entries)
  = footprint_sum entries
    - from_option _get_surface_size 0 (entries !! k)
    + _get_surface_size surface.
Proof.
  destruct (entries !! k) as [old|] eqn:Hk; simpl.
  - rewrite <- insert_delete_eq, footprint_sum_insert by apply lookup_delete_eq.
    rewrite (footprint_sum_delete _ _ old) by done. lia.
  - rewrite footprint_sum_insert by done. lia.
Qed.

(** The loop on any deque and dict: it only deletes, it takes from the
    counter what it deletes, and it stops with room or an empty deque. *)
Lemma evict_any size max_mem order entries mem order' entries' mem' :
  evict size max_mem order entries mem = (order', entries', mem') →
  (∀ k x, entries' !! k = Some x → entries !! k = Some x) ∧
  mem' - footprint_sum entries' = mem - footprint_sum entries ∧
  (mem' + size ≤ max_mem ∨ order' = []) ∧
  (mem + size ≤ max_mem → entries' = entries ∧ order' = order).
Proof.
  revert entries mem.
  induction order as [|oldest rest IH]; intros entries mem Hev.
  - simpl in Hev. injection Hev as <- <- <-. auto.
  - simpl in Hev. destruct (decide (mem + size > max_mem)) as [Hover|Hfits].
    + destruct (entries !! oldest) as [old|] eqn:Hlook.
      * apply IH in Hev as (Hsub & Hmem & Hstop & _).
        split; [|split; [|split; [done|lia]]].
        -- intros k x Hk. apply Hsub in Hk.
           destruct (decide (k = oldest)) as [->|Hne].
           ++ by rewrite lookup_delete_eq in Hk.
           ++ by rewrite lookup_delete_ne in Hk.
        -- rewrite (footprint_sum_delete _ _ old) in Hmem by done. lia.
      * apply IH in Hev as (Hsub & Hmem & Hstop & _).
        split; [done|]. split; [done|]. split; [done|lia].
    + injection Hev as <- <- <-. split; [done|]. split; [done|].
      split; [left; lia | done].
Qed.

Lemma tracked_nil_empty order entries :
  (∀ k, is_Some (entries !! k) → k ∈ order) → order = [] → entries = ∅.
Proof.
  intros Htr ->. apply map_empty. intros k. apply eq_None_not_Some.
  intros Hk%Htr. by apply elem_of_nil in Hk.
Qed.

(** [put] on a cache whose dict keys are in its deque. *)
Lemma put_any path surface c :
  tracked c →
  ∃ c', put path (Some surface) c = Ret c' ∧
        tracked c' ∧
        max_memory c' = max_memory c ∧
        cache c' !! path = Some surface ∧
        last (access_order c') = Some path ∧
        (∀ k x, k ≠ path → cache c' !! k = Some x → cache c !! k = Some x) ∧
        stale_bytes c' = stale_bytes c ∧
        (current_memory c + _get_surface_size surface ≤ max_memory c →
         cache c' = <[path := surface]> (cache c)) ∧
        (footprint_sum (cache c')
         ≤ Z.max (max_memory c - stale_bytes c) (_get_surface_size surface)).
Proof.
  intros Htr.
  destruct (evict (_get_surface_size surface) (max_memory c) (access_order c)
              (cache c) (current_memory c)) as [[order entries] mem] eqn:Hev.
  rewrite (put_unfold _ _ _ _ _ _ Hev).
  destruct (evict_tracked _ _ _ _ _ _ _ _ Hev Htr) as [Htr' _].
  destruct (evict_any _ _ _ _ _ _ _ _ Hev) as (Hsub & Hmem & Hstop & Hfit).
  pose proof (footprint_sum_insert_over entries path surface) as Hins.
  pose proof (footprint_sum_nonneg entries) as Hpos.
  pose proof (surface_size_nonneg surface) as Hsize.
  assert (Hbound : footprint_sum (<[path := surface]> entries)
                   ≤ Z.max (max_memory c - stale_bytes c)
                           (_get_surface_size surface)).
  { unfold stale_bytes. destruct Hstop as [Hstop|Horder].
    - assert (0 ≤ from_option _get_surface_size 0 (entries !! path)).
      { destruct (entries !! path); simpl; [apply surface_size_nonneg | lia]. }
      lia.
    - rewrite (tracked_nil_empty order entries Htr' Horder) in *.
      rewrite lookup_empty, footprint_sum_empty in Hins. simpl in Hins. lia. }
  destruct (entries !! path) as [old|] eqn:Hlook.
  - destruct (deque_remove_elem path order) as (d & -> & Hdsub & Hdsup).
    { apply Htr'. by rewrite Hlook. }
    simpl. eexists. split; [done|]. simpl.
    split; [|split; [done|split; [apply lookup_insert_eq|split; [apply last_snoc|]]]].
    + intros k Hk. simpl in *. apply elem_of_app.
      destruct (decide (k = path)) as [->|Hne].
      * right. by apply list_elem_of_singleton.
      * left. rewrite lookup_insert_ne in Hk by done. apply Hdsup; auto.
    + split; [|split; [|split; [|done]]].
      * intros k x Hne Hk. rewrite lookup_insert_ne in Hk by done. by apply Hsub.
      * unfold stale_bytes. simpl. simpl in Hins. lia.
      * intros Hroom. destruct (Hfit Hroom) as [-> _]. done.
  - eexists. split; [done|]. simpl.
    split; [|split; [done|split; [apply lookup_insert_eq|split; [apply last_snoc|]]]].
    + intros k Hk. simpl in *. apply elem_of_app.
      destruct (decide (k = path)) as [->|Hne].
      * right. by apply list_elem_of_singleton.
      * left. rewrite lookup_insert_ne in Hk by done. auto.
    + split; [|split; [|split; [|done]]].
      * intros k x Hne Hk. rewrite lookup_insert_ne in Hk by done. by apply Hsub.
      * unfold stale_bytes. simpl. simpl in Hins. lia.
      * intros Hroom. destruct (Hfit Hroom) as [-> _]. done.
Qed.
Lemma deque_remove_perm x d d' :
  deque_remove x d = Ret d' → d ≡ₚ d' ++ [x].
Proof.
  revert d'. induction d as [|y d IH]; intros d'; [done|].
  simpl. destruct (decide (x = y)) as [->|Hne].
  - intros [= <-]. by rewrite Permutation_app_comm.
  - destruct (deque_remove x d) as [d1|e]; [|done]. simpl.
    intros [= <-]. simpl. by rewrite <- IH.
Qed.

(** [get] on a cache whose dict keys are in its deque. *)
Lemma get_any path c :
  tracked c →
  ∃ c', get path c = Ret (cache c !! path, c') ∧
        tracked c' ∧
        cache c' = cache c ∧
        max_memory c' = max_memory c ∧
        current_memory c' = current_memory c ∧
        access_order c' ≡ₚ access_order c ∧
        (is_Some (cache c !! path) → last (access_order c') = Some path) ∧
        (cache c !! path = None → c' = c).
Proof.
  intros Htr. unfold get.
  destruct (cache c !! path) as [surface|] eqn:Hlook.
  - destruct (deque_remove_elem path (access_order c)) as (d & Hd & _ & Hsup).
    { apply Htr. by rewrite Hlook. }
    rewrite Hd. simpl. eexists. split; [done|]. simpl.
    split; [|split; [done|split; [done|split; [done|split; [|split]]]]].
    + intros k Hk. simpl in *. apply elem_of_app.
      destruct (decide (k = path)) as [->|Hne].
      * right. by apply list_elem_of_singleton.
      * left. apply Hsup; [by apply Htr | done].
    + symmetry. by apply deque_remove_perm.
    + intros _. apply last_snoc.
    + done.
  - exists c. split; [done|]. split; [done|]. split; [done|]. split; [done|].
    split; [done|]. split; [done|]. split; [by intros [? ?] | done].
Qed.

Lemma run_app ops1 ops2 c :
  run (ops1 ++ ops2) c = c' ← run ops1 c; run ops2 c'.
Proof.
  revert c. induction ops1 as [|o ops1 IH]; intros c; [done|].
  simpl. destruct (run_op o c) as [c1|e]; [|done]. simpl. apply IH.
Qed.

(** Along any run the stale bytes never shrink; [Get] and [Put] leave
    them as they are. *)
Lemma run_any ops c :
  tracked c →
  ∃ c', run ops c = Ret c' ∧ tracked c' ∧
        max_memory c' = max_memory c ∧
        stale_bytes c ≤ stale_bytes c' ∧
        (Forall get_or_put ops → stale_bytes c' = stale_bytes c).
Proof.
  revert c. induction ops as [|o ops IH]; intros c Htr.
  { exists c. split; [done|]. split; [done|]. split; [done|]. split; [lia|done]. }
  rewrite run_cons. destruct o as [path|path surface|]; unfold run_op.
  - destruct (get_any path c Htr) as (c1 & -> & Htr1 & Hdict & Hmax & Hmem & _).
    simpl. destruct (IH c1 Htr1) as (c' & Hrun & Htr' & Hmax' & Hle & Heq).
    assert (Hst : stale_bytes c1 = stale_bytes c).
    { unfold stale_bytes. by rewrite Hdict, Hmem. }
    exists c'. split; [done|]. split; [done|]. split; [congruence|].
    split; [lia|]. intros Hops. apply Forall_cons in Hops as [_ Hops].
    rewrite Heq by done. done.
  - destruct (put_any path surface c Htr)
      as (c1 & -> & Htr1 & Hmax & _ & _ & _ & Hst & _).
    simpl. destruct (IH c1 Htr1) as (c' & Hrun & Htr' & Hmax' & Hle & Heq).
    exists c'. split; [done|]. split; [done|]. split; [congruence|].
    split; [lia|]. intros Hops. apply Forall_cons in Hops as [_ Hops].
    rewrite Heq by done. done.
  - simpl. destruct (IH (cache_clear c) (cache_clear_tracked c))
      as (c' & Hrun & Htr' & Hmax' & Hle & Heq).
    exists c'. split; [done|]. split; [done|]. split; [done|].
    split.
    + pose proof (footprint_sum_nonneg (cache c)).
      unfold stale_bytes in *. simpl in Hle.
      rewrite footprint_sum_empty in Hle. lia.
    + intros Hops. by apply Forall_cons in Hops as [[] _].
Qed.
End cache_any_state.

Section cache_extras.
Import ImageCache.

(** X1: no sequence of [Get], [Put] and art-mode clears on a new cache
    raises an exception; afterwards every key of the dict is in the deque
    and the byte counter is at least the bytes the dict holds; and as long
    as there was no clear the cache is consistent: each key once in the
    deque, the same keys in the dict, the counter exact. *)
Theorem cache_runs_never_raise (ops : list op) (max_memory_mb : Z) :
  ∃ c, run ops (init max_memory_mb) = Ret c ∧
       tracked c ∧
       footprint_sum (cache c) ≤ current_memory c ∧
       max_memory c = max_memory_mb * 1024 * 1024 ∧
       (Forall get_or_put ops → consistent c).
Proof.
  destruct (run_any ops (init max_memory_mb)) as (c & Hrun & Htr & Hmax & Hle & _).
  { apply consistent_tracked, consistent_init. }
  exists c. split; [done|]. split; [done|]. split; [|split; [done|]].
  - unfold stale_bytes in Hle. simpl in Hle.
    rewrite footprint_sum_empty in Hle. lia.
  - intros Hops.
    destruct (run_consistent ops (init max_memory_mb) Hops (consistent_init _))
      as (c' & Hrun' & Hc' & _).
    rewrite Hrun in Hrun'. by injection Hrun' as <-.
Qed.

(** X2: whatever the cache went through, a [Put] returns and the [Get] of
    the same key that follows it returns the surface that was put, also
    when the surface is larger than the budget. *)
Theorem put_get_round_trip (c : t) (path : string) (surface : Surface) :
  tracked c →
  ∃ c' c'', put path (Some surface) c = Ret c' ∧
            get path c' = Ret (Some surface, c'') ∧
            cache c'' !! path = Some surface.
Proof.
  intros Htr.
  destruct (put_any path surface c Htr) as (c' & Hput & Htr' & _ & Hlook & _).
  destruct (get_any path c' Htr') as (c'' & Hget & _ & Hdict & _).
  exists c', c''. split; [done|]. rewrite Hlook in Hget.
  split; [done|]. by rewrite Hdict.
Qed.

Lemma put_get_round_trip_witness :
  tracked (cache_clear (with_budget 1000)) ∧
  ∃ c' c'', put "k" (Some img1600) (cache_clear (with_budget 1000)) = Ret c' ∧
            get "k" c' = Ret (Some img1600, c'') ∧
            cache c'' !! "k" = Some img1600.
Proof.
  assert (H : tracked (cache_clear (with_budget 1000)))
    by apply cache_clear_tracked.
  split; [exact H|]. exact (put_get_round_trip _ "k" img1600 H).
Defined.

(** X3: a [Put] never changes the surface stored under another key: each
    other key keeps its surface or is evicted; and when the new surface
    fits next to what the counter counts, nothing is evicted. *)
Theorem put_keeps_other_entries (c : t) (path : string) (surface : Surface) :
  tracked c →
  ∃ c', put path (Some surface) c = Ret c' ∧
        (∀ k, k ≠ path →
              cache c' !! k = cache c !! k ∨ cache c' !! k = None) ∧
        (current_memory c + _get_surface_size surface ≤ max_memory c →
         cache c' = <[path := surface]> (cache c)).
Proof.
  intros Htr.
  destruct (put_any path surface c Htr)
    as (c' & Hput & _ & _ & _ & _ & Hother & _ & Hroom & _).
  exists c'. split; [done|]. split; [|done].
  intros k Hne. destruct (cache c' !! k) as [x|] eqn:Hk; [|by right].
  left. symmetry. by apply Hother.
Qed.

Lemma put_keeps_other_entries_witness :
  tracked (with_budget 1000) ∧
  ∃ c', put "a" (Some (img400 1)) (with_budget 1000) = Ret c' ∧
        (∀ k, k ≠ "a" →
              cache c' !! k = cache (with_budget 1000) !! k ∨
              cache c' !! k = None) ∧
        (current_memory (with_budget 1000) + _get_surface_size (img400 1)
         ≤ max_memory (with_budget 1000) →
         cache c' = <["a" := img400 1]> (cache (with_budget 1000))).
Proof.
  assert (H : tracked (with_budget 1000))
    by apply consistent_tracked, consistent_with_budget.
  split; [exact H|]. exact (put_keeps_other_entries _ "a" (img400 1) H).
Defined.

(** X4: a [Get] only reorders: it returns what the dict holds for the key
    ([None] for a missing key, which leaves the cache as it is), never
    changes the dict, the byte counter or the budget, keeps the deque a
    permutation of itself, and after a hit the key is at the
    most-recently-used end. *)
Theorem get_only_reorders (c : t) (path : string) :
  tracked c →
  ∃ c', get path c = Ret (cache c !! path, c') ∧
        cache c' = cache c ∧
        max_memory c' = max_memory c ∧
        current_memory c' = current_memory c ∧
        access_order c' ≡ₚ access_order c ∧
        (is_Some (cache c !! path) → last (access_order c') = Some path) ∧
        (cache c !! path = None → c' = c).
Proof.
  intros Htr.
  destruct (get_any path c Htr) as (c' & Hget & _ & H).
  by exists c'.
Qed.

Lemma get_only_reorders_witness :
  tracked (with_budget 1000) ∧
  ∃ c', get "a" (with_budget 1000)
        = Ret (cache (with_budget 1000) !! "a", c') ∧
        cache c' = cache (with_budget 1000).
Proof.
  assert (H : tracked (with_budget 1000))
    by apply consistent_tracked, consistent_with_budget.
  split; [exact H|].
  destruct (get_only_reorders _ "a" H) as (c' & Hget & Hdict & _).
  exists c'. by split.
Defined.

(** X5: the bytes the cache holds when art mode is toggled stay in the byte
    counter for good: after the clear, whatever [Get], [Put] and clears
    follow, the counter exceeds the bytes the dict holds by at least what
    it counted at the clear, and by exactly that if no other clear
    follows. *)
Theorem cleared_bytes_stay_counted (ops1 ops2 : list op) (max_memory_mb : Z) :
  ∃ c1 c2,
    run ops1 (init max_memory_mb) = Ret c1 ∧
    run (ops1 ++ Clear :: ops2) (init max_memory_mb) = Ret c2 ∧
    footprint_sum (cache c1) ≤ current_memory c1 ∧
    current_memory c1 ≤ current_memory c2 - footprint_sum (cache c2) ∧
    (Forall get_or_put ops2 →
     current_memory c2 - footprint_sum (cache c2) = current_memory c1).
Proof.
  destruct (run_any ops1 (init max_memory_mb))
    as (c1 & Hrun1 & Htr1 & _ & Hle1 & _).
  { apply consistent_tracked, consistent_init. }
  destruct (run_any ops2 (cache_clear c1) (cache_clear_tracked c1))
    as (c2 & Hrun2 & _ & _ & Hle & Heq).
  exists c1, c2. split; [done|]. split.
  { rewrite run_app, Hrun1. exact Hrun2. }
  unfold stale_bytes in *. simpl in *. rewrite footprint_sum_empty in *.
  split; [lia|]. split; [lia|]. intros Hops. rewrite Heq by done. lia.
Qed.

(** X6: the byte budget also holds across art-mode clears: for every
    sequence of [Get], [Put] and clears on an empty cache of budget
    [budget >= 0] in which every image put is of at most [budget] bytes,
    the dict never holds more than [budget] bytes. *)
Theorem cache_within_budget_despite_clears (budget : Z) (ops : list op) :
  0 ≤ budget →
  Forall (within_or_clear budget) ops →
  ∃ c, run ops (with_budget budget) = Ret c ∧
       footprint_sum (cache c) ≤ budget.
Proof.
  intros Hbudget Hops.
  cut (∀ c, tracked c → max_memory c = budget → 0 ≤ stale_bytes c →
            footprint_sum (cache c) ≤ budget →
            ∃ c', run ops c = Ret c' ∧ footprint_sum (cache c') ≤ budget).
  { intros Hcut. apply Hcut; simpl.
    - apply consistent_tracked, consistent_with_budget.
    - done.
    - unfold stale_bytes. simpl. rewrite footprint_sum_empty. lia.
    - rewrite footprint_sum_empty. lia. }
  induction Hops as [|o ops Ho Hops IH]; intros c Htr Hmax Hst Hsum.
  { by exists c. }
  rewrite run_cons. destruct o as [path|path surface|]; unfold run_op.
  - destruct (get_any path c Htr) as (c1 & -> & Htr1 & Hdict & Hmax1 & Hmem & _).
    simpl. apply IH; [done | congruence | |].
    + unfold stale_bytes in *. by rewrite Hdict, Hmem.
    + by rewrite Hdict.
  - destruct (put_any path surface c Htr)
      as (c1 & -> & Htr1 & Hmax1 & _ & _ & _ & Hst1 & _ & Hbound).
    simpl. simpl in Ho. apply IH; [done | congruence | lia | lia].
  - simpl. apply IH; [apply cache_clear_tracked | done | |].
    + pose proof (footprint_sum_nonneg (cache c)).
      unfold stale_bytes in *. simpl. rewrite footprint_sum_empty. lia.
    + simpl. rewrite footprint_sum_empty. lia.
Qed.

Lemma cache_within_budget_despite_clears_witness :
  0 ≤ 1000 ∧
  Forall (within_or_clear 1000)
    [Put "a" (img400 1); Put "b" (img400 2); Clear; Put "c" (img400 3)] ∧
  ∃ c, run [Put "a" (img400 1); Put "b" (img400 2); Clear; Put "c" (img400 3)]
         (with_budget 1000) = Ret c ∧
       footprint_sum (cache c) ≤ 1000.
Proof.
  assert (H0 : 0 ≤ 1000) by lia.
  assert (Hops : Forall (within_or_clear 1000)
    [Put "a" (img400 1); Put "b" (img400 2); Clear; Put "c" (img400 3)]).
  { repeat constructor; vm_compute; congruence. }
  split; [exact H0|]. split; [exact Hops|].
  exact (cache_within_budget_despite_clears 1000 _ H0 Hops).
Defined.

(** X7: what a [Put] leaves in the dict is bounded by the budget less the
    stale bytes of the counter, or by the image put alone: with [S] stale
    bytes the cache works as one of budget [max_memory - S], and once
    [S] plus an image exceeds the budget the [Put] of it leaves that image
    alone in the dict. *)
Theorem put_capacity_after_clear (c : t) (path : string) (surface : Surface) :
  tracked c →
  ∃ c', put path (Some surface) c = Ret c' ∧
        stale_bytes c' = stale_bytes c ∧
        footprint_sum (cache c')
        ≤ Z.max (max_memory c - stale_bytes c) (_get_surface_size surface) ∧
        (stale_bytes c + _get_surface_size surface > max_memory c →
         cache c' = {[ path := surface ]}).
Proof.
  intros Htr.
  destruct (put_any path surface c Htr)
    as (c' & Hput & Htr' & _ & Hlook & _ & Hother & Hst & _ & Hbound).
  exists c'. split; [done|]. split; [done|]. split; [done|].
  intros Hbig.
  destruct (evict (_get_surface_size surface) (max_memory c) (access_order c)
              (cache c) (current_memory c)) as [[order entries] mem] eqn:Hev.
  destruct (evict_tracked _ _ _ _ _ _ _ _ Hev Htr) as [Htr1 _].
  destruct (evict_any _ _ _ _ _ _ _ _ Hev) as (_ & Hmem & Hstop & _).
  pose proof (footprint_sum_nonneg entries) as Hpos.
  unfold stale_bytes in Hbig.
  destruct Hstop as [Hstop|Horder]; [lia|].
  rewrite (tracked_nil_empty order entries Htr1 Horder) in Hev.
  rewrite (put_unfold _ _ _ _ _ _ Hev) in Hput.
  rewrite lookup_empty in Hput. injection Hput as <-. simpl.
  by rewrite insert_empty.
Qed.

Lemma put_capacity_after_clear_witness :
  ∃ c, run [Put "a" (img400 1); Put "b" (img400 2); Clear] (with_budget 1000)
       = Ret c ∧
       tracked c ∧
       stale_bytes c = 800 ∧
       ∃ c', put "c" (Some (img400 3)) c = Ret c' ∧
             stale_bytes c' = stale_bytes c ∧
             footprint_sum (cache c')
             ≤ Z.max (max_memory c - stale_bytes c) (_get_surface_size (img400 3)).
Proof.
  destruct (run_any [Put "a" (img400 1); Put "b" (img400 2); Clear]
              (with_budget 1000)) as (c & Hrun & Htr & _).
  { apply consistent_tracked, consistent_with_budget. }
  assert (Heq : Ret c = run [Put "a" (img400 1); Put "b" (img400 2); Clear]
                          (with_budget 1000)) by done.
  vm_compute in Heq. injection Heq as ->.
  eexists. split; [exact Hrun|]. split; [exact Htr|].
  split; [by vm_compute|].
  destruct (put_capacity_after_clear _ "c" (img400 3) Htr)
    as (c' & Hput & Hst & Hbound & _).
  exists c'. split; [exact Hput|]. split; [exact Hst|]. exact Hbound.
Defined.
End cache_extras.

(** * Further properties of the preloader *)

Section preloader_extras.
Import ImagePreloader.

Lemma neighbours_in_images images current_index num_ahead num_behind p :
  p ∈ neighbours images current_index num_ahead num_behind → p ∈ images.
Proof.
  unfold neighbours. rewrite list_elem_of_omap.
  intros (idx & _ & Hidx). by eapply list_elem_of_lookup_2.
Qed.

Lemma preload_paths_exactly paths self cache :
  ImageCache.tracked cache →
  ∃ self' cache' new,
    preload_paths paths (self, cache) = Ret (self', cache') ∧
    ImageCache.tracked cache' ∧
    executor self' = executor self ++ new ∧
    preload_queue self' = preload_queue self ∪ list_to_set new ∧
    NoDup new ∧
    (∀ p, p ∈ new ↔ p ∈ paths ∧ (p ∉ preload_queue self) ∧
                     ImageCache.cache cache !! p = None) ∧
    ImageCache.cache cache' = ImageCache.cache cache ∧
    ImageCache.current_memory cache' = ImageCache.current_memory cache ∧
    ImageCache.access_order cache' ≡ₚ ImageCache.access_order cache.
Proof.
  revert self cache. induction paths as [|q paths IH]; intros self cache Htr.
  - exists self, cache, []. split; [done|]. split; [done|].
    split; [by rewrite app_nil_r|]. split.
    { apply set_eq. intros k. rewrite elem_of_union, elem_of_list_to_set.
      split; [auto | intros [?|Hk]; [done | by apply elem_of_nil in Hk]]. }
    split; [apply NoDup_nil_2|]. split; [|done].
    intros p. split; [intros Hp; by apply elem_of_nil in Hp|].
    intros [Hp _]. by apply elem_of_nil in Hp.
  - change (preload_paths (q :: paths) (self, cache))
      with (st1 ← preload_path q (self, cache); preload_paths paths st1).
    unfold preload_path.
    destruct (decide (q ∈ preload_queue self)) as [Hq|Hq].
    + simpl. destruct (IH self cache Htr)
        as (self' & cache' & new & Hrun & Htr' & Hexec & Hqueue & Hnd & Hnew & Hrest).
      exists self', cache', new. split; [done|]. split; [done|].
      split; [done|]. split; [done|]. split; [done|]. split; [|done].
      intros p. rewrite Hnew, elem_of_cons. split; [intros (? & ? & ?); auto|].
      intros ([->|Hp] & Hnq & Hmiss); [done | auto].
    + destruct (get_any q cache Htr)
        as (cache1 & -> & Htr1 & Hdict & _ & Hmem & Hperm & _ & Hsame).
      simpl. destruct (ImageCache.cache cache !! q) as [sq|] eqn:Hlook.
      * destruct (IH self cache1 Htr1)
          as (self' & cache' & new & Hrun & Htr' & Hexec & Hqueue & Hnd & Hnew & Hd & Hm & Hp).
        exists self', cache', new. split; [done|]. split; [done|].
        split; [done|]. split; [done|]. split; [done|]. split.
        { intros p. rewrite Hnew, elem_of_cons, Hdict.
          split; [intros (? & ? & ?); auto|].
          intros ([->|Hp'] & Hnq & Hmiss); [congruence | auto]. }
        split; [congruence|]. split; [congruence|]. by rewrite Hp.
      * rewrite (Hsame eq_refl) in *. clear Hsame.
        destruct (IH {| preload_queue := {[q]} ∪ preload_queue self;
                        executor := executor self ++ [q] |} cache Htr)
          as (self' & cache' & new & Hrun & Htr' & Hexec & Hqueue & Hnd & Hnew & Hrest).
        simpl in *. exists self', cache', (q :: new).
        split; [done|]. split; [done|].
        split; [by rewrite Hexec, <- app_assoc|]. split.
        { rewrite Hqueue. apply set_eq. intros k.
          rewrite !elem_of_union, !elem_of_list_to_set, elem_of_cons,
            elem_of_singleton.
          split; [intros [[?|?]|?]; auto | intros [?|[?|?]]; auto]. }
        split.
        { apply NoDup_cons. split; [|done]. rewrite Hnew.
          intros (_ & Hnq & _). apply Hnq, elem_of_union. left.
          by apply elem_of_singleton. }
        split; [|done].
        intros p. rewrite !elem_of_cons, Hnew, elem_of_union, elem_of_singleton.
        split.
        -- intros [->|(Hp & Hnq & Hmiss)]; [auto|].
           split; [auto|]. split; [|done]. intros Hpq. apply Hnq. auto.
        -- intros ([->|Hp] & Hnq & Hmiss); [auto|].
           destruct (decide (p = q)) as [->|Hne]; [auto|]. right.
           split; [done|]. split; [|done]. intros [?|?]; done.
Qed.

(** X8: on a cache whose dict keys are in its deque, a call of
    [preload_images] returns for every list of images, every integer
    [current_index] and all counts.  The tasks it adds to the pool are the
    neighbours that were neither in flight nor cached, each once; they are
    paths of the list and become the new members of the in-flight set.  The
    call never changes the dict or the byte counter, and only permutes
    the deque. *)
Theorem preload_submits_exactly (images : list string)
    (current_index num_ahead num_behind : Z) (self : t) (cache : ImageCache.t) :
  ImageCache.tracked cache →
  ∃ self' cache' new,
    preload_images images current_index num_ahead num_behind (self, cache)
    = Ret (self', cache') ∧
    executor self' = executor self ++ new ∧
    preload_queue self' = preload_queue self ∪ list_to_set new ∧
    NoDup new ∧
    (∀ p, p ∈ new ↔
          p ∈ neighbours images current_index num_ahead num_behind ∧
          (p ∉ preload_queue self) ∧ ImageCache.cache cache !! p = None) ∧
    (∀ p, p ∈ new → p ∈ images) ∧
    ImageCache.cache cache' = ImageCache.cache cache ∧
    ImageCache.current_memory cache' = ImageCache.current_memory cache ∧
    ImageCache.access_order cache' ≡ₚ ImageCache.access_order cache.
Proof.
  intros Htr. rewrite preload_images_paths.
  destruct (preload_paths_exactly
              (neighbours images current_index num_ahead num_behind)
              self cache Htr)
    as (self' & cache' & new & Hrun & _ & Hexec & Hqueue & Hnd & Hnew & Hrest).
  exists self', cache', new. split; [done|]. split; [done|]. split; [done|].
  split; [done|]. split; [done|]. split; [|done].
  intros p Hp. apply Hnew in Hp as [Hp _].
  by eapply neighbours_in_images.
Qed.

Lemma preload_submits_exactly_witness :
  ImageCache.tracked (ImageCache.init 500) ∧
  ∃ self' cache' new,
    preload_images ["a"; "b"] (-3) 2 1 (init, ImageCache.init 500)
    = Ret (self', cache') ∧
    executor self' = executor init ++ new ∧
    NoDup new ∧
    (∀ p, p ∈ new → p ∈ ["a"; "b"]).
Proof.
  assert (H : ImageCache.tracked (ImageCache.init 500))
    by apply consistent_tracked, consistent_init.
  split; [exact H|].
  destruct (preload_submits_exactly ["a"; "b"] (-3) 2 1 init _ H)
    as (self' & cache' & new & Hrun & Hexec & _ & Hnd & _ & Hin & _).
  exists self', cache', new. split; [exact Hrun|]. split; [exact Hexec|].
  split; [exact Hnd | exact Hin].
Defined.

(** X9: a task that decoded its image leaves it cached and not in flight,
    and the next iteration of [preload_images] on the path submits
    nothing; a task whose decode failed, for a path that is not cached,
    leaves the path free, and the next iteration submits it again. *)
Theorem prefetch_retries_only_failures (path : string)
    (surface : ImageCache.Surface) (self : t) (cache : ImageCache.t) :
  ImageCache.tracked cache →
  (∃ cache1 cache2,
     (_preload_task path (Some surface) (self, cache)).2 = Ret cache1 ∧
     ImageCache.cache cache1 !! path = Some surface ∧
     preload_path path ((_preload_task path (Some surface) (self, cache)).1, cache1)
     = Ret (task_done path self, cache2)) ∧
  (_preload_task path None (self, cache) = (task_done path self, Ret cache)) ∧
  (ImageCache.cache cache !! path = None →
   preload_path path (task_done path self, cache)
   = Ret ({| preload_queue := {[path]} ∪ preload_queue (task_done path self);
             executor := executor (task_done path self) ++ [path] |}, cache)).
Proof.
  intros Htr.
  assert (Hfree : path ∉ preload_queue (task_done path self)).
  { simpl. rewrite elem_of_difference, elem_of_singleton. by intros [_ ?]. }
  split; [|split; [done|]].
  - destruct (put_any path surface cache Htr)
      as (cache1 & Hput & Htr1 & _ & Hlook & _).
    destruct (get_any path cache1 Htr1) as (cache2 & Hget & _).
    exists cache1, cache2. simpl. split; [done|]. split; [done|].
    unfold preload_path. rewrite decide_False by done.
    rewrite Hget, Hlook. done.
  - intros Hmiss. unfold preload_path. rewrite decide_False by done.
    unfold ImageCache.get. by rewrite Hmiss.
Qed.

Lemma prefetch_retries_only_failures_witness :
  ImageCache.tracked (ImageCache.init 500) ∧
  ∃ cache1 cache2,
    (_preload_task "k" (Some (ImageCache.img400 0))
       (init, ImageCache.init 500)).2 = Ret cache1 ∧
    ImageCache.cache cache1 !! "k" = Some (ImageCache.img400 0) ∧
    preload_path "k"
      ((_preload_task "k" (Some (ImageCache.img400 0))
          (init, ImageCache.init 500)).1, cache1)
    = Ret (task_done "k" init, cache2).
Proof.
  assert (H : ImageCache.tracked (ImageCache.init 500))
    by apply consistent_tracked, consistent_init.
  split; [exact H|].
  exact (proj1 (prefetch_retries_only_failures "k" (ImageCache.img400 0)
                  init _ H)).
Defined.
End preloader_extras.

(** * Further properties of the viewport *)

Section viewport_extras.
Import Viewer.

Lemma state_eta (s : state) :
  mk (images s) (current_index s) (running s) (mode s) (cache s) (zoom s)
     (pan_x s) (pan_y s) (slideshow_active s) (slideshow_delay s)
     (last_slide_time s) (art_mode s) (mosaic_mode s) = s.
Proof. by destruct s. Qed.

Lemma handle_events_cons e events s :
  handle_events (e :: events) s = s' ← handle_event e s; handle_events events s'.
Proof. done. Qed.

Lemma py_mod_in_range a (l : list string) :
  l ≠ [] →
  py_mod a (Z.of_nat (length l)) = Ret (a `mod` Z.of_nat (length l)) ∧
  0 ≤ a `mod` Z.of_nat (length l) < Z.of_nat (length l).
Proof.
  intros Hl. assert (0 < Z.of_nat (length l)).
  { destruct l; [done | simpl; lia]. }
  unfold py_mod. rewrite decide_False by lia.
  split; [done|]. by apply Z.mod_pos_bound.
Qed.

Lemma well_indexed_nonempty s : well_indexed s → images s ≠ [].
Proof. unfold well_indexed. intros H Himg. rewrite Himg in H. simpl in H. lia. Qed.

(** Dropping the current image: the list loses that image; the viewer
    stops if the list is empty, and otherwise moves to the image that
    followed, the first one after the last. *)
Lemma drop_current_spec s :
  well_indexed s →
  ∃ s', drop_current s = Ret s' ∧
        images s' = delete (Z.to_nat (current_index s)) (images s) ∧
        S (length (images s')) = length (images s) ∧
        zoom s' = zoom s ∧
        (length (images s) = 1%nat → images s' = [] ∧ running s' = false) ∧
        ((1 < length (images s))%nat →
         well_indexed s' ∧ running s' = running s ∧
         images s' !! Z.to_nat (current_index s')
         = images s !! Z.to_nat ((current_index s + 1)
                                   `mod` Z.of_nat (length (images s)))).
Proof.
  intros Hidx. unfold well_indexed in Hidx.
  unfold drop_current, py_pop, py_index.
  rewrite decide_True by done. simpl.
  assert (Hlen : S (length (delete (Z.to_nat (current_index s)) (images s)))
                 = length (images s)).
  { rewrite length_delete; [lia|]. apply lookup_lt_is_Some. lia. }
  destruct (delete (Z.to_nat (current_index s)) (images s)) as [|x l] eqn:Hdel.
  - simpl in Hlen. eexists. split; [done|]. simpl.
    split; [done|]. split; [done|]. split; [done|].
    split; [done|]. intros Hlong. lia.
  - unfold py_mod. rewrite decide_False by (simpl; lia). simpl.
    eexists. split; [done|]. simpl. split; [done|]. split; [done|].
    split; [done|]. split; [intros H1; simpl in Hlen; lia|].
    intros _. simpl in Hlen.
    assert (Hl : Z.of_nat (length (images s)) = Z.of_nat (S (length l)) + 1) by lia.
    split; [|split; [done|]].
    + unfold well_indexed. simpl. apply Z.mod_pos_bound. lia.
    + rewrite <- Hdel. rewrite Hl.
      destruct (decide (current_index s = Z.of_nat (S (length l)))) as [Hlast|Hmid].
      * rewrite Hlast, Z_mod_same_full.
        replace ((Z.of_nat (S (length l)) + 1) `mod` (Z.of_nat (S (length l)) + 1))
          with 0 by (symmetry; apply Z_mod_same_full).
        rewrite list_lookup_delete_lt; [done | lia].
      * rewrite !Z.mod_small by lia.
        rewrite list_lookup_delete_ge by lia. f_equal. lia.
Qed.

Lemma handle_event_indexed (e : event) (s : state) :
  well_indexed s →
  ∃ s', handle_event e s = Ret s' ∧
        (well_indexed s' ∨ (images s' = [] ∧ running s' = false)) ∧
        (keeps_images e → well_indexed s' ∧ images s' = images s).
Proof.
  intros Hidx. pose proof (well_indexed_nonempty s Hidx) as Hne.
  assert (Hsame : ∀ s', images s' = images s → current_index s' = current_index s →
                        well_indexed s').
  { intros s' Hi Hc. unfold well_indexed. by rewrite Hi, Hc. }
  destruct e as [|button|left rx ry|k|]; simpl.
  - eexists. split; [done|]. split; [left|intros _; split]; by auto.
  - repeat case_decide; eexists; (split; [done|]);
      (split; [left|intros _; split]); by auto.
  - destruct left; eexists; (split; [done|]);
      (split; [left|intros _; split]); by auto.
  - destruct k; simpl;
      try (eexists; split; [done|]; split; [left|intros _; split]; by auto).
    + destruct (py_mod_in_range (current_index s + 1) (images s) Hne) as [-> Hr].
      simpl. eexists. split; [done|]. split; [by left|]. by intros _.
    + destruct (py_mod_in_range (current_index s - 1) (images s) Hne) as [-> Hr].
      simpl. eexists. split; [done|]. split; [by left|]. by intros _.
    + unfold py_index. unfold well_indexed in Hidx.
      rewrite decide_True by done. simpl.
      destruct (drop_current_spec s Hidx) as (s' & -> & _ & Hlen & _ & Hone & Hmany).
      exists s'. split; [done|]. split; [|by intros []].
      destruct (decide (length (images s) = 1%nat)) as [H1|H1]; [right; auto|].
      left. apply Hmany. lia.
    + unfold py_index. unfold well_indexed in Hidx.
      rewrite decide_True by done. simpl. destruct (mode s).
      * destruct (drop_current_spec s Hidx) as (s' & -> & _ & Hlen & _ & Hone & Hmany).
        exists s'. split; [done|]. split; [|by intros []].
        destruct (decide (length (images s) = 1%nat)) as [H1|H1]; [right; auto|].
        left. apply Hmany. lia.
      * exists s. split; [done|]. split; [by left | by intros []].
  - eexists. split; [done|]. split; [left|intros _; split]; by auto.
Qed.


Lemma drop_current_zoom s s' : drop_current s = Ret s' → zoom s' = zoom s.
Proof.
  unfold drop_current. destruct (py_pop (images s) (current_index s)) as [l|e];
    [|done]. simpl. destruct l as [|x l]; [by intros [= <-]|].
  destruct (py_mod _ _) as [idx|e]; [|done]. simpl. by intros [= <-].
Qed.

Lemma event_zoom_reachable e s s' :
  zoom s ∈ zoom_values → handle_event e s = Ret s' → zoom s' ∈ zoom_values.
Proof.
  intros Hz. pose proof zoom_values_closed as Hclosed.
  rewrite Forall_forall in Hclosed. destruct (Hclosed _ Hz) as [Hwheel _].
  destruct e as [|button|left rx ry|k|]; simpl.
  - by intros [= <-].
  - repeat case_decide; intros [= <-]; simpl; [apply (Hwheel wheel_up) | apply (Hwheel wheel_down) | done].
  - destruct left; by intros [= <-].
  - destruct k; simpl; try (by intros [= <-]).
    + intros [= <-]. apply zoom_values_start.
    + destruct (py_mod _ _); [|done]. by intros [= <-].
    + destruct (py_mod _ _); [|done]. by intros [= <-].
    + destruct (py_index _ _); [|done]. simpl.
      intros Hd%drop_current_zoom. by rewrite Hd.
    + destruct (py_index _ _); [|done]. simpl. destruct (mode s).
      * intros Hd%drop_current_zoom. by rewrite Hd.
      * by intros [= <-].
  - by intros [= <-].
Qed.

Lemma events_keep_images events s :
  well_indexed s → zoom s ∈ zoom_values → Forall keeps_images events →
  ∃ s', handle_events events s = Ret s' ∧ well_indexed s' ∧
        images s' = images s ∧ zoom s' ∈ zoom_values.
Proof.
  intros Hidx Hz Hev. revert s Hidx Hz.
  induction Hev as [|e events He Hev IH]; intros s Hidx Hz; [by exists s|].
  rewrite handle_events_cons.
  destruct (handle_event_indexed e s Hidx) as (s1 & Hs1 & _ & Hkeep).
  destruct (Hkeep He) as [Hidx1 Himg1].
  pose proof (event_zoom_reachable e s s1 Hz Hs1) as Hz1.
  rewrite Hs1. simpl.
  destruct (IH s1 Hidx1 Hz1) as (s' & Hrun & Hidx' & Himg' & Hz').
  exists s'. split; [done|]. split; [done|]. split; [congruence | done].
Qed.

Lemma frame_tail_viewport (current_time : Z) (events : list event) (s : state) :
  well_indexed s →
  zoom s ∈ zoom_values →
  Forall keeps_images events →
  ∃ s', frame_tail current_time events s = Ret s' ∧
        well_indexed s' ∧
        images s' = images s ∧
        zoom s' ∈ zoom_values.
Proof.
  intros Hidx Hz Hev. pose proof (well_indexed_nonempty s Hidx) as Hne.
  assert (Hstep : ∃ s1, slideshow_step current_time s = Ret s1 ∧
                        well_indexed s1 ∧ images s1 = images s ∧ zoom s1 = zoom s).
  { unfold slideshow_step. destruct (slideshow_active s); [|by exists s].
    case_decide; [|by exists s].
    destruct (py_mod_in_range (current_index s + 1) (images s) Hne) as [-> Hr].
    simpl. eexists. by split. }
  destruct Hstep as (s1 & Hs1 & Hidx1 & Himg1 & Hz1).
  unfold frame_tail. rewrite Hs1. simpl.
  destruct (events_keep_images events s1 Hidx1) as (s' & Hrun & Hidx' & Himg' & Hz');
    [by rewrite Hz1 | done |].
  exists s'. split; [done|]. split; [done|]. split; [congruence | done].
Qed.

(** X11: from a state whose index addresses an image and whose zoom is one
    the wheel reaches from 1.0, the slideshow check followed by any events
    other than [Delete] and the digit keys raises nothing, keeps the list
    of images, leaves the index addressing an image and the zoom between
    0.1 and 4.0. *)
Theorem frame_tail_keeps_viewport (current_time : Z) (events : list event)
    (s : state) :
  well_indexed s →
  zoom s ∈ zoom_values →
  Forall keeps_images events →
  ∃ s', frame_tail current_time events s = Ret s' ∧
        well_indexed s' ∧
        images s' = images s ∧
        zoom s' ∈ zoom_values ∧
        Float64.leb Float64.lit_0_1 (zoom s') = true ∧
        Float64.leb (zoom s') Float64.lit_4_0 = true.
Proof.
  intros Hidx Hz Hev.
  destruct (frame_tail_viewport current_time events s Hidx Hz Hev)
    as (s' & Hrun & Hidx' & Himg' & Hz').
  exists s'. split; [done|]. split; [done|]. split; [done|]. split; [done|].
  pose proof zoom_values_closed as Hclosed.
  rewrite Forall_forall in Hclosed. destruct (Hclosed _ Hz') as [_ Hrange].
  unfold zoom_in_range in Hrange.
  apply andb_prop in Hrange as [Hrange _].
  apply andb_prop in Hrange as [Hrange _].
  by apply andb_prop in Hrange as [Hf01 Hf4].
Qed.

Lemma frame_tail_keeps_viewport_witness :
  well_indexed (init ["a.png"; "b.png"] 0) ∧
  zoom (init ["a.png"; "b.png"] 0) ∈ zoom_values ∧
  Forall keeps_images [MOUSEBUTTONDOWN 4; KEYDOWN K_r; KEYDOWN K_LEFT] ∧
  ∃ s', frame_tail 100 [MOUSEBUTTONDOWN 4; KEYDOWN K_r; KEYDOWN K_LEFT]
          (init ["a.png"; "b.png"] 0) = Ret s' ∧
        well_indexed s' ∧
        images s' = images (init ["a.png"; "b.png"] 0).
Proof.
  assert (H1 : well_indexed (init ["a.png"; "b.png"] 0)) by (by vm_compute).
  assert (H2 : zoom (init ["a.png"; "b.png"] 0) ∈ zoom_values)
    by apply zoom_values_start.
  assert (H3 : Forall keeps_images
            [MOUSEBUTTONDOWN 4; KEYDOWN K_r; KEYDOWN K_LEFT])
    by (by repeat constructor).
  split; [exact H1|]. split; [exact H2|]. split; [exact H3|].
  destruct (frame_tail_keeps_viewport 100 _ _ H1 H2 H3)
    as (s' & Hrun & Hidx & Himg & _).
  exists s'. split; [exact Hrun|]. split; [exact Hidx | exact Himg].
Defined.

Lemma set_current_index_same s : set_current_index (current_index s) s = s.
Proof. by destruct s. Qed.

Lemma rights_advance (k : nat) (s : state) :
  images s ≠ [] →
  handle_events (replicate k (KEYDOWN K_RIGHT)) s
  = Ret (set_current_index
           (if decide (k = 0%nat) then current_index s
            else (current_index s + Z.of_nat k) `mod` Z.of_nat (length (images s)))
           s).
Proof.
  revert s. induction k as [|k IH]; intros s Hne.
  - simpl. by rewrite set_current_index_same.
  - change (replicate (S k) (KEYDOWN K_RIGHT))
      with (KEYDOWN K_RIGHT :: replicate k (KEYDOWN K_RIGHT)).
    rewrite handle_events_cons. simpl.
    destruct (py_mod_in_range (current_index s + 1) (images s) Hne) as [-> _].
    simpl. rewrite IH by done. simpl. f_equal. unfold set_current_index. simpl.
    f_equal. destruct (decide (k = 0%nat)) as [->|Hk].
    + done.
    + rewrite Zplus_mod_idemp_l. f_equal. lia.
Qed.

(** X12: navigation wraps around and undoes itself: on a state whose index
    addresses an image, [Right] from the last image goes to the first and
    [Left] from the first to the last, [Right] then [Left] and [Left] then
    [Right] give back the state, and so do as many [Right] presses as
    there are images. *)
Theorem navigation_wraps (s : state) :
  well_indexed s →
  handle_events [KEYDOWN K_RIGHT; KEYDOWN K_LEFT] s = Ret s ∧
  handle_events [KEYDOWN K_LEFT; KEYDOWN K_RIGHT] s = Ret s ∧
  handle_events (replicate (length (images s)) (KEYDOWN K_RIGHT)) s = Ret s ∧
  (current_index s = Z.of_nat (length (images s)) - 1 →
   handle_event (KEYDOWN K_RIGHT) s = Ret (set_current_index 0 s)) ∧
  (current_index s = 0 →
   handle_event (KEYDOWN K_LEFT) s
   = Ret (set_current_index (Z.of_nat (length (images s)) - 1) s)).
Proof.
  intros Hidx. pose proof (well_indexed_nonempty s Hidx) as Hne.
  unfold well_indexed in Hidx.
  set (n := Z.of_nat (length (images s))) in *.
  assert (Hr : handle_event (KEYDOWN K_RIGHT) s
               = Ret (set_current_index ((current_index s + 1) `mod` n) s)).
  { simpl. by destruct (py_mod_in_range (current_index s + 1) (images s) Hne)
      as [-> _]. }
  assert (Hl : handle_event (KEYDOWN K_LEFT) s
               = Ret (set_current_index ((current_index s - 1) `mod` n) s)).
  { simpl. by destruct (py_mod_in_range (current_index s - 1) (images s) Hne)
      as [-> _]. }
  split; [|split; [|split; [|split]]].
  - rewrite handle_events_cons, Hr. simpl.
    destruct (py_mod_in_range ((current_index s + 1) `mod` n - 1) (images s) Hne)
      as [-> _]. simpl. fold n.
    rewrite Zminus_mod_idemp_l.
    replace (current_index s + 1 - 1) with (current_index s) by lia.
    rewrite Z.mod_small by done.
    unfold set_current_index. simpl. apply f_equal, state_eta.
  - rewrite handle_events_cons, Hl. simpl.
    destruct (py_mod_in_range ((current_index s - 1) `mod` n + 1) (images s) Hne)
      as [-> _]. simpl. fold n.
    rewrite Zplus_mod_idemp_l.
    replace (current_index s - 1 + 1) with (current_index s) by lia.
    rewrite Z.mod_small by done.
    unfold set_current_index. simpl. apply f_equal, state_eta.
  - rewrite rights_advance by done.
    rewrite decide_False by (destruct (images s); [done | simpl; lia]).
    fold n. rewrite <- (Z.mul_1_l n) at 1. rewrite Z.mod_add by lia.
    rewrite Z.mod_small by done. by rewrite set_current_index_same.
  - intros Hlast. rewrite Hr. do 2 f_equal.
    replace (current_index s + 1) with n by lia. apply Z_mod_same_full.
  - intros Hfirst. rewrite Hl. do 2 f_equal.
    rewrite Hfirst. replace (0 - 1) with (n - 1 + (-1) * n) by lia.
    rewrite Z.mod_add by lia. apply Z.mod_small. lia.
Qed.

Lemma navigation_wraps_witness :
  well_indexed (sample 0) ∧
  handle_events (replicate 3 (KEYDOWN K_RIGHT)) (sample 0) = Ret (sample 0).
Proof.
  assert (H : well_indexed (sample 0)) by (by vm_compute).
  split; [exact H|].
  exact (proj1 (proj2 (proj2 (navigation_wraps (sample 0) H)))).
Defined.


(** X14: panning is additive and unclamped: a sequence of mouse motions
    with the left button held moves the pan by the sums of their
    displacements and changes nothing else; a motion without the button
    changes nothing. *)
Theorem pan_is_additive (rels : list (Z * Z)) (s : state) :
  handle_events (drag <$> rels) s
  = Ret (set_pan (pan_x s + total (fst <$> rels))
                 (pan_y s + total (snd <$> rels)) s) ∧
  ∀ rel_x rel_y, handle_event (MOUSEMOTION false rel_x rel_y) s = Ret s.
Proof.
  split; [|done]. revert s.
  induction rels as [|[rx ry] rels IH]; intros s.
  - simpl. rewrite !Z.add_0_r. unfold set_pan. f_equal. symmetry. apply state_eta.
  - change (drag <$> (rx, ry) :: rels) with (drag (rx, ry) :: (drag <$> rels)).
    rewrite handle_events_cons. simpl. rewrite IH.
    unfold set_pan, total. simpl. apply f_equal.
    f_equal; symmetry; apply Z.add_assoc.
Qed.

(** X15: two automatic advances of the slideshow are more than
    [slideshow_delay] apart: the frame that advances records its time, and
    every later check no more than [slideshow_delay] after it leaves the
    state as it is. *)
Theorem slideshow_advances_are_spaced (s : state) (t1 t2 : Z) :
  images s ≠ [] →
  slideshow_active s = true →
  t1 - last_slide_time s > slideshow_delay s →
  t2 - t1 ≤ slideshow_delay s →
  ∃ s1, slideshow_step t1 s = Ret s1 ∧
        current_index s1
        = (current_index s + 1) `mod` Z.of_nat (length (images s)) ∧
        last_slide_time s1 = t1 ∧
        slideshow_step t2 s1 = Ret s1.
Proof.
  intros Hne Hactive Hlate Hsoon. unfold slideshow_step. rewrite Hactive.
  rewrite decide_True by done.
  destruct (py_mod_in_range (current_index s + 1) (images s) Hne) as [-> _].
  simpl. eexists. split; [done|]. simpl. split; [done|]. split; [done|].
  rewrite Hactive. rewrite decide_False by lia. done.
Qed.

Lemma slideshow_advances_are_spaced_witness :
  images (set_slideshow_active true (sample 0)) ≠ [] ∧
  slideshow_active (set_slideshow_active true (sample 0)) = true ∧
  5000 - last_slide_time (set_slideshow_active true (sample 0))
  > slideshow_delay (set_slideshow_active true (sample 0)) ∧
  8000 - 5000 ≤ slideshow_delay (set_slideshow_active true (sample 0)) ∧
  ∃ s1, slideshow_step 5000 (set_slideshow_active true (sample 0)) = Ret s1 ∧
        current_index s1 = 1 ∧
        last_slide_time s1 = 5000 ∧
        slideshow_step 8000 s1 = Ret s1.
Proof.
  assert (H1 : images (set_slideshow_active true (sample 0)) ≠ []) by done.
  assert (H3 : 5000 - last_slide_time (set_slideshow_active true (sample 0))
               > slideshow_delay (set_slideshow_active true (sample 0)))
    by (by vm_compute).
  assert (H4 : 8000 - 5000 ≤ slideshow_delay (set_slideshow_active true (sample 0)))
    by (by vm_compute).
  split; [exact H1|]. split; [reflexivity|]. split; [exact H3|]. split; [exact H4|].
  exact (slideshow_advances_are_spaced _ 5000 8000 H1 eq_refl H3 H4).
Defined.



Lemma wheel_moves_checked :
  Forall (λ x, Float64.leb x (wheel wheel_up x) = true ∧
               Float64.leb (wheel wheel_down x) x = true ∧
               (wheel wheel_up x = x → x = Float64.lit_4_0) ∧
               (wheel wheel_down x = x → x = Float64.lit_0_1))
         zoom_values.
Proof. apply (bool_decide_unpack _). by vm_compute. Qed.

(** X17: after any wheel events from a zoom of 1.0, one more step up never
    lowers the zoom and one more step down never raises it, and a step
    leaves the zoom as it is only at the limit it is clamped to: up at 4.0,
    down at 0.1. *)
Theorem wheel_steps_move (s : state) (zs : list zoom_event) :
  zoom s = Float64.lit_1_0 →
  ∃ s', handle_events (zoom_button <$> zs) s = Ret s' ∧
        Float64.leb (zoom s') (wheel wheel_up (zoom s')) = true ∧
        Float64.leb (wheel wheel_down (zoom s')) (zoom s') = true ∧
        (wheel wheel_up (zoom s') = zoom s' → zoom s' = Float64.lit_4_0) ∧
        (wheel wheel_down (zoom s') = zoom s' → zoom s' = Float64.lit_0_1).
Proof.
  intros Hstart.
  destruct (wheel_events_closed zs s) as (s' & Hrun & Hin).
  { rewrite Hstart. apply zoom_values_start. }
  exists s'. split; [done|].
  pose proof wheel_moves_checked as Hall.
  rewrite Forall_forall in Hall. by apply Hall.
Qed.

Lemma wheel_steps_move_witness :
  zoom (init ["a.png"] 0) = Float64.lit_1_0 ∧
  ∃ s', handle_events (zoom_button <$> [wheel_down; wheel_up]) (init ["a.png"] 0)
        = Ret s' ∧
        Float64.leb (zoom s') (wheel wheel_up (zoom s')) = true.
Proof.
  split; [reflexivity|].
  destruct (wheel_steps_move (init ["a.png"] 0) [wheel_down; wheel_up] eq_refl)
    as (s' & Hrun & Hup & _).
  exists s'. split; [exact Hrun | exact Hup].
Defined.
End viewport_extras.

(** * Properties of rendering and of the loop *)

Section render_extras.
Import Render.


(** X18: [display_image] is a cache-aside read.  On a cache whose dict keys
    are in its deque it fails only if the image is neither cached nor
    decodable, or if drawing fails; a cached image is served without the
    decoder (the dict is as it was), a decoded one is put into the cache,
    and a failed decode leaves the cache as it was; once the image is in
    the dict, the next call does not depend on the decoder. *)
Theorem display_image_cache_aside (image_path : string)
    (loaded : option ImageCache.Surface) (drawn : bool) (cache : ImageCache.t) :
  ImageCache.tracked cache →
  ∃ cache',
    display_image image_path loaded drawn cache
    = (if decide (ImageCache.cache cache !! image_path = None ∧ loaded = None)
       then false else drawn, cache') ∧
    ImageCache.tracked cache' ∧
    (ImageCache.cache cache !! image_path = None → loaded = None →
     cache' = cache) ∧
    (is_Some (ImageCache.cache cache !! image_path) →
     ImageCache.cache cache' = ImageCache.cache cache) ∧
    (ImageCache.cache cache !! image_path = None →
     ImageCache.cache cache' !! image_path = loaded) ∧
    (is_Some (ImageCache.cache cache' !! image_path) →
     ∀ loaded' drawn',
       (display_image image_path loaded' drawn' cache').1 = drawn').
Proof.
  intros Htr. unfold display_image.
  assert (Hhit : ∀ c, ImageCache.tracked c →
            is_Some (ImageCache.cache c !! image_path) →
            ∀ loaded' drawn',
              (match ImageCache.get image_path c with
               | Ret (Some _, cache1) => (drawn', cache1)
               | Ret (None, cache1) =>
                   match loaded' with
                   | None => (false, cache1)
                   | Some surface =>
                       match ImageCache.put image_path (Some surface) cache1 with
                       | Ret cache2 => (drawn', cache2)
                       | Raise _ =>
                           (false, ImageCache.put_aborted image_path surface cache1)
                       end
                   end
               | Raise _ => (false, c)
               end).1 = drawn').
  { intros c Hc [x Hx] loaded' drawn'.
    destruct (get_any image_path c Hc) as (c1 & -> & _). by rewrite Hx. }
  destruct (get_any image_path cache Htr)
    as (cache1 & -> & Htr1 & Hdict & _ & _ & _ & _ & Hsame).
  destruct (ImageCache.cache cache !! image_path) as [x|] eqn:Hlook.
  - exists cache1. rewrite decide_False by (by intros [? _]).
    split; [done|]. split; [done|]. split; [done|]. split; [done|].
    split; [done|]. intros Hs. by apply Hhit.
  - rewrite (Hsame eq_refl) in *. destruct loaded as [surface|].
    + destruct (put_any image_path surface cache Htr)
        as (cache2 & -> & Htr2 & _ & Hput & _).
      exists cache2. rewrite decide_False by (by intros [_ ?]).
      split; [done|]. split; [done|]. split; [done|].
      split; [by intros [? ?]|]. split; [done|]. intros Hs. by apply Hhit.
    + exists cache. rewrite decide_True by done.
      split; [done|]. split; [done|]. split; [done|].
      split; [done|]. split; [done|]. intros Hs. by apply Hhit.
Qed.

Lemma display_image_cache_aside_witness :
  ImageCache.tracked (ImageCache.init 500) ∧
  ∃ cache',
    display_image "a.png" (Some (ImageCache.img400 0)) true (ImageCache.init 500)
    = (true, cache') ∧
    ImageCache.cache cache' !! "a.png" = Some (ImageCache.img400 0).
Proof.
  assert (H : ImageCache.tracked (ImageCache.init 500))
    by apply consistent_tracked, consistent_init.
  split; [exact H|].
  destruct (display_image_cache_aside "a.png" (Some (ImageCache.img400 0)) true
              _ H) as (cache' & Hd & _ & _ & _ & Hput & _).
  exists cache'. split; [exact Hd | exact (Hput eq_refl)].
Defined.



Lemma bind_ret {A B} (a : A) (f : A → res B) : (Ret a ≫= f) = f a.
Proof. done. Qed.




Lemma drop_current_cache s s' :
  Viewer.drop_current s = Ret s' → Viewer.cache s' = Viewer.cache s.
Proof.
  unfold Viewer.drop_current.
  destruct (Viewer.py_pop (Viewer.images s) (Viewer.current_index s)) as [l|e];
    [|done]. rewrite bind_ret. destruct l as [|x l]; [by intros [= <-]|].
  destruct (Viewer.py_mod _ _) as [idx|e]; [|done]. rewrite bind_ret.
  by intros [= <-].
Qed.







(** X22: an image that is neither cached nor decodable costs the frame:
    in single-image mode the loop drops it from the list and goes to the
    next pass, without preloading, without the slideshow check and without
    handling any event; the cache and the preloader are as they were. *)
Theorem frame_drops_undecodable_image (inp : frame_input) (s : Viewer.state)
    (preloader : ImagePreloader.t) (image_path : string) :
  Viewer.mosaic_mode s = false →
  Viewer.well_indexed s →
  Viewer.images s !! Z.to_nat (Viewer.current_index s) = Some image_path →
  ImageCache.cache (Viewer.cache s) !! image_path = None →
  loaded inp = None →
  ∃ s', frame inp s preloader = Ret (s', preloader) ∧
        Viewer.drop_current s = Ret s' ∧
        Viewer.images s'
        = delete (Z.to_nat (Viewer.current_index s)) (Viewer.images s) ∧
        Viewer.cache s' = Viewer.cache s.
Proof.
  intros Hmosaic Hidx Hpath Hmiss Hload.
  destruct (drop_current_spec s Hidx) as (s' & Hdrop & Himg & _).
  exists s'. split; [|split; [done|split; [done|]]].
  - unfold frame. rewrite Hmosaic. unfold Viewer.well_indexed in Hidx.
    unfold Viewer.py_index. rewrite decide_True by done.
    rewrite bind_ret, Hpath. unfold display_image, ImageCache.get.
    rewrite Hmiss, Hload.
    replace (Viewer.set_cache (Viewer.cache s) s) with s by (by destruct s).
    by rewrite Hdrop.
  - by apply drop_current_cache.
Qed.

Lemma frame_drops_undecodable_image_witness :
  Viewer.mosaic_mode (Viewer.sample 0) = false ∧
  Viewer.well_indexed (Viewer.sample 0) ∧
  ∃ s', frame (mk_input None true (λ _, None) 16 [Viewer.KEYDOWN Viewer.K_q])
          (Viewer.sample 0) ImagePreloader.init
        = Ret (s', ImagePreloader.init) ∧
        Viewer.images s' = ["b.png"; "c.png"].
Proof.
  assert (H : Viewer.well_indexed (Viewer.sample 0)) by (by vm_compute).
  split; [reflexivity|]. split; [exact H|].
  destruct (frame_drops_undecodable_image
              (mk_input None true (λ _, None) 16 [Viewer.KEYDOWN Viewer.K_q])
              (Viewer.sample 0) ImagePreloader.init "a.png"
              eq_refl H eq_refl eq_refl eq_refl)
    as (s' & Hrun & _ & Himg & _).
  exists s'. split; [exact Hrun | exact Himg].
Defined.
End render_extras.

(** * Properties of the grid *)

Section layout_extras.
Import Layout.

Lemma grid_sizes_checked : forallb grid_size_exact checked_counts = true.
Proof. by vm_compute. Qed.

Lemma grid_size_checked (num_images : Z) :
  1 ≤ num_images ≤ 5000 →
  ∃ g, grid_size num_images = Some g ∧
       0 < g ∧ (g - 1) * (g - 1) < num_images ∧ num_images ≤ g * g.
Proof.
  intros Hn. pose proof grid_sizes_checked as Hall.
  rewrite forallb_forall in Hall.
  assert (Hin : num_images ∈ checked_counts).
  { unfold checked_counts. apply elem_of_seqZ. lia. }
  apply list_elem_of_In, Hall in Hin. unfold grid_size_exact in Hin.
  destruct (grid_size num_images) as [g|]; [|done].
  apply bool_decide_eq_true_1 in Hin. by exists g.
Qed.

(** X23: for 1 to 5000 images the grid size, computed in floating point
    as [math.ceil(math.sqrt(num_images))], is the exact ceiling of the
    square root: the least [g] with [num_images <= g * g], so that the
    grid has room for every image and no row to spare. *)
Theorem grid_size_is_ceiling_sqrt (num_images : Z) :
  1 ≤ num_images ≤ 5000 →
  ∃ g, grid_size num_images = Some g ∧
       0 < g ∧ (g - 1) * (g - 1) < num_images ∧ num_images ≤ g * g ∧
       ∀ g', 0 ≤ g' → num_images ≤ g' * g' → g ≤ g'.
Proof.
  intros Hn.
  destruct (grid_size_checked num_images Hn) as (g & Hg & Hpos & Hlow & Hhigh).
  exists g. split; [exact Hg|]. split; [exact Hpos|]. split; [exact Hlow|].
  split; [exact Hhigh|]. intros g' Hg' Hfit. nia.
Qed.

Lemma grid_size_is_ceiling_sqrt_witness :
  1 ≤ 10 ≤ 5000 ∧
  ∃ g, grid_size 10 = Some g ∧
       0 < g ∧ (g - 1) * (g - 1) < 10 ∧ 10 ≤ g * g ∧
       ∀ g', 0 ≤ g' → 10 ≤ g' * g' → g ≤ g'.
Proof.
  assert (H : 1 ≤ 10 ≤ 5000) by lia.
  split; [exact H|]. exact (grid_size_is_ceiling_sqrt 10 H).
Defined.

Lemma grid_position (g n i : Z) :
  0 < g → n ≤ g * g → 0 ≤ i < n →
  0 ≤ i `mod` g < g ∧ 0 ≤ i `div` g < g ∧ i = g * (i `div` g) + i `mod` g.
Proof.
  intros Hg Hn Hi. split; [by apply Z.mod_pos_bound|]. split.
  - split; [apply Z.div_pos; lia|]. apply Z.div_lt_upper_bound; lia.
  - apply Z.div_mod. lia.
Qed.



(** X25: for 1 to 5000 images, [save_contact_sheet] pastes every
    thumbnail of at most 200 x 200 pixels inside its own cell of 200 x 200
    on the sheet, centred to within a pixel, and the cell lies on the
    sheet. *)
Theorem contact_sheet_images_inside (num_images i img_width img_height : Z) :
  1 ≤ num_images ≤ 5000 →
  0 ≤ i < num_images →
  0 ≤ img_width ≤ 200 → 0 ≤ img_height ≤ 200 →
  ∃ g px py x y,
    grid_size num_images = Some g ∧
    contact_sheet_position num_images i img_width img_height
    = Some (px, py, g * 200) ∧
    x = i `mod` g * 200 ∧ y = i `div` g * 200 ∧
    0 ≤ x ∧ x + 200 ≤ g * 200 ∧ 0 ≤ y ∧ y + 200 ≤ g * 200 ∧
    x ≤ px ∧ px + img_width ≤ x + 200 ∧
    y ≤ py ∧ py + img_height ≤ y + 200 ∧
    0 ≤ (x + 200 - (px + img_width)) - (px - x) ≤ 1 ∧
    0 ≤ (y + 200 - (py + img_height)) - (py - y) ≤ 1.
Proof.
  intros Hn Hi Hw Hh.
  destruct (grid_size_checked num_images Hn) as (g & Hg & Hpos & _ & Hle).
  unfold contact_sheet_position. rewrite Hg. simpl. rewrite decide_False by lia.
  destruct (grid_position g num_images i Hpos Hle Hi) as (Hci & Hri & _).
  pose proof (Z.div_mod (200 - img_width) 2 ltac:(lia)) as Hx.
  pose proof (Z.mod_pos_bound (200 - img_width) 2 ltac:(lia)) as Hxm.
  pose proof (Z.div_mod (200 - img_height) 2 ltac:(lia)) as Hy.
  pose proof (Z.mod_pos_bound (200 - img_height) 2 ltac:(lia)) as Hym.
  eexists g, _, _, _, _. split; [done|]. split; [done|].
  split; [done|]. split; [done|]. repeat split; nia.
Qed.

Lemma contact_sheet_images_inside_witness :
  1 ≤ 10 ≤ 5000 ∧ 0 ≤ 7 < 10 ∧ 0 ≤ 200 ≤ 200 ∧ 0 ≤ 133 ≤ 200 ∧
  ∃ g px py x y,
    grid_size 10 = Some g ∧
    contact_sheet_position 10 7 200 133 = Some (px, py, g * 200) ∧
    x = 7 `mod` g * 200 ∧ y = 7 `div` g * 200 ∧
    0 ≤ x ∧ x + 200 ≤ g * 200 ∧ 0 ≤ y ∧ y + 200 ≤ g * 200 ∧
    x ≤ px ∧ px + 200 ≤ x + 200 ∧
    y ≤ py ∧ py + 133 ≤ y + 200 ∧
    0 ≤ (x + 200 - (px + 200)) - (px - x) ≤ 1 ∧
    0 ≤ (y + 200 - (py + 133)) - (py - y) ≤ 1.
Proof.
  assert (H1 : 1 ≤ 10 ≤ 5000) by lia.
  assert (H2 : 0 ≤ 7 < 10) by lia.
  assert (H3 : 0 ≤ 200 ≤ 200) by lia.
  assert (H4 : 0 ≤ 133 ≤ 200) by lia.
  split; [exact H1|]. split; [exact H2|]. split; [exact H3|]. split; [exact H4|].
  exact (contact_sheet_images_inside 10 7 200 133 H1 H2 H3 H4).
Defined.
End layout_extras.
